(** * py-snake: the simulation core of [snake.py]

    A shallow embedding of the game engine of [snake.py]: coordinates and
    directions, the snake as a head-first list, the food spawner, the
    collision check, the frame pacing and one iteration of [Game.main_loop].

    Conventions of the embedding.
    - Python integers are [Z]; a [list] is a [list]; in-place mutation of the
      snake is explicit state passing, the game object being the only owner.
    - Exceptions are the [Raise] results of a small error-and-state monad.
    - The global random generator is a stream of raw draws [draws : nat -> Z]
      read at a cursor; the cursor is the state threaded by the monad.
    - [while True] loops carry fuel; [Diverge] says the loop had not returned
      when the fuel ran out.
    - [calculate_frame_timeout] has the exact rational value of the
      timeout formula; [calculate_frame_timeout_binary64] has the float the
      code returns, every operation rounded to binary64. *)

From Stdlib Require Import ZArith List Bool Lia QArith Qpower Qround Lqa.
From Stdlib Require Import Floats.
Import ListNotations.

Local Open Scope Z_scope.

(** ** Results, exceptions and the monad *)

Inductive exn : Type :=
| IndexError
| ValueError
| ZeroDivisionError.

Inductive result (A : Type) : Type :=
| Ok (a : A)
| Raise (e : exn)
| Diverge.

Arguments Ok {A} a.
Arguments Raise {A} e.
Arguments Diverge {A}.

(** A computation reads the random stream from a cursor and hands the
    advanced cursor on. *)
Definition M (A : Type) : Type := nat -> result (A * nat).

Definition ret {A} (a : A) : M A := fun pos => Ok (a, pos).

Definition raise {A} (e : exn) : M A := fun _ => Raise e.

Definition bind {A B} (m : M A) (k : A -> M B) : M B :=
  fun pos =>
    match m pos with
    | Ok (a, pos') => k a pos'
    | Raise e => Raise e
    | Diverge => Diverge
    end.

Notation "x <- m ;; k" := (bind m (fun x => k))
  (at level 61, m at next level, right associativity).

(** ** Module constants *)

Definition KEY_H : Z := 104.
Definition KEY_J : Z := 106.
Definition KEY_K : Z := 107.
Definition KEY_L : Z := 108.

(** The arrow-key codes of the [curses] module (ncurses' [KEY_DOWN] ...
    [KEY_RIGHT], octal 0402 to 0405). *)
Definition curses_KEY_DOWN : Z := 258.
Definition curses_KEY_UP : Z := 259.
Definition curses_KEY_LEFT : Z := 260.
Definition curses_KEY_RIGHT : Z := 261.

Definition TIC : Q := 1 # 6.
Definition BORDER : Z := 0.

Inductive Color : Type :=
| BLACK | RED | GREEN | YELLOW | BLUE | MAGENTA | CYAN | WHITE.

(** ** The window: only its size matters to the engine *)

Record Window : Type := { getmaxyx : Z * Z }.

Definition get_window_max_yx (window : Window) : Z * Z :=
  let '(max_y, max_x) := getmaxyx window in
  (max_y - 1, max_x - 1).

(** ** Directions *)

Inductive Direction : Type := UP | DOWN | LEFT | RIGHT.

Definition Direction_eqb (a b : Direction) : bool :=
  match a, b with
  | UP, UP | DOWN, DOWN | LEFT, LEFT | RIGHT, RIGHT => true
  | _, _ => false
  end.

Definition horizontal : list Direction := [LEFT; RIGHT].
Definition vertical : list Direction := [UP; DOWN].

Definition is_opposite (self other : Direction) : bool :=
  existsb (fun b : bool => b)
    [ Direction_eqb self UP && Direction_eqb other DOWN;
      Direction_eqb self DOWN && Direction_eqb other UP;
      Direction_eqb self LEFT && Direction_eqb other RIGHT;
      Direction_eqb self RIGHT && Direction_eqb other LEFT ].

(** ** Coordinates *)

Record Coord : Type := mkCoord { y : Z; x : Z }.

Definition Coord_add (self other : Coord) : Coord :=
  mkCoord (y self + y other) (x self + x other).

Definition Coord_sub (self other : Coord) : Coord :=
  mkCoord (y self - y other) (x self - x other).

Definition Coord_eq (self other : Coord) : bool :=
  (y self =? y other) && (x self =? x other).

Definition from_direction (direction : Direction) : Coord :=
  let coord := mkCoord 0 0 in
  match direction with
  | UP => mkCoord (y coord - 1) (x coord)
  | DOWN => mkCoord (y coord + 1) (x coord)
  | LEFT => mkCoord (y coord) (x coord - 1)
  | RIGHT => mkCoord (y coord) (x coord + 1)
  end.

Definition Snake : Type := list Coord.

(** [coord in snake]: the list scan with [Coord.__eq__]. *)
Definition Coord_in (coord : Coord) (snake : Snake) : bool :=
  existsb (fun part => Coord_eq coord part) snake.

(** [snake[0]] *)
Definition snake_head (snake : Snake) : M Coord :=
  match snake with
  | [] => raise IndexError
  | head :: _ => ret head
  end.

Record Food : Type := mkFood { image : Z; coord : Coord; color : Color }.

(** The glyphs [random.choice] picks from, as code points: the seven
    characters of the string literal in [create_random_food]. *)
Definition food_images : list Z := [37; 36; 35; 226; 8222; 8211; 56].

Definition food_colors : list Color := [RED; YELLOW; GREEN; WHITE].

(** ** The random source and the food spawner *)

Section Random.

(** The raw draws of the generator, in the order they are consumed. *)
Variable draws : nat -> Z.

(** [random.randint(a, b)]: an empty range raises before anything is
    drawn; otherwise the draw is folded into [a..b]. *)
Definition randint (a b : Z) : M Z :=
  fun pos =>
    if b <? a then Raise ValueError
    else Ok (a + draws pos mod (b - a + 1), S pos).

(** [random.choice(seq)] on a sequence with default [d] for typing only. *)
Definition choice {A} (seq : list A) (d : A) : M A :=
  fun pos =>
    match seq with
    | [] => Raise IndexError
    | _ => Ok (nth (Z.to_nat (draws pos mod Z.of_nat (length seq))) seq d,
               S pos)
    end.

Definition random_inside_window (window : Window) (border : Z) : M Coord :=
  let '(max_y, max_x) := get_window_max_yx window in
  y <- randint border (max_y - border) ;;
  x <- randint border (max_x - border) ;;
  ret (mkCoord y x).

(** [Food.random_outside_snake]: [fuel] bounds the number of [continue]s. *)
Fixpoint random_outside_snake (fuel : nat) (window : Window) (snake : Snake)
  : M Coord :=
  let border := 5 in
  coord <- random_inside_window window border ;;
  if Coord_in coord snake then
    match fuel with
    | O => fun _ => Diverge
    | S fuel' => random_outside_snake fuel' window snake
    end
  else ret coord.

Definition create_random_food (fuel : nat) (window : Window) (snake : Snake)
  : M Food :=
  image <- choice food_images 0 ;;
  color <- choice food_colors WHITE ;;
  coord <- random_outside_snake fuel window snake ;;
  ret (mkFood image coord color).

End Random.

(** ** Input *)

Definition keys2direction : list (list Z * Direction) :=
  [ ([curses_KEY_UP; KEY_K], UP);
    ([curses_KEY_DOWN; KEY_J], DOWN);
    ([curses_KEY_RIGHT; KEY_L], RIGHT);
    ([curses_KEY_LEFT; KEY_H], LEFT) ].

(** [get_direction] applied to the code [window.getch()] returned. *)
Definition get_direction (key : Z) : option Direction :=
  match find (fun item => existsb (Z.eqb key) (fst item)) keys2direction with
  | Some item => Some (snd item)
  | None => None
  end.

(** ** Snake model, collision check and pacing *)

Definition snake_move (snake : Snake) (direction : Direction) (can_grow : bool)
  : M Snake :=
  snake0 <- snake_head snake ;;
  let head := Coord_add snake0 (from_direction direction) in
  if Coord_eq head snake0 then ret snake
  else
    let snake := head :: snake in
    if can_grow then ret snake
    else ret (removelast snake).

Definition get_window_center (window : Window) : Coord :=
  let '(max_y, max_x) := get_window_max_yx window in
  mkCoord (max_y / 2) (max_x / 2).

Definition can_eat_food (snake : Snake) (food : Food) : M bool :=
  snake0 <- snake_head snake ;;
  ret (Coord_eq snake0 (coord food)).

Definition can_go_further (window : Window) (snake : Snake)
  (direction : Direction) : M bool :=
  snake0 <- snake_head snake ;;
  let next_head_coord := Coord_add snake0 (from_direction direction) in
  let '(max_y, max_x) := get_window_max_yx window in
  ret (negb (existsb (fun b : bool => b)
    [ y next_head_coord <? BORDER;
      y next_head_coord >? max_y - BORDER;
      x next_head_coord <? BORDER;
      x next_head_coord >? max_x - BORDER;
      Coord_in next_head_coord snake ])).

Definition Direction_in (direction : Direction) (set : list Direction) : bool :=
  existsb (Direction_eqb direction) set.

Definition horizontal_correction (direction : Direction) : Q :=
  if Direction_in direction horizontal then 1 # 2 else 1.

Definition calculate_frame_timeout (snake : Snake) (direction : Direction)
  : M Q :=
  let divisor := Z.of_nat (length snake) * 2 in
  if divisor =? 0 then raise ZeroDivisionError
  else
    let snake_size_correction := (1 / inject_Z divisor)%Q in
    ret (TIC * horizontal_correction direction + snake_size_correction)%Q.

(** ** The game *)

Record Game : Type := mkGame {
  self_snake : Snake;
  self_food : Food;
  self_direction : Direction;
  self_debug : bool
}.

(** What one pass through the body of [while True] ends in: the frame is
    drawn and the loop sleeps for [timeout], or the loop is left. *)
Inductive Tick : Type :=
| Continue (self : Game) (timeout : Q)
| Break (self : Game).

(** How a run over finitely many polled keys ends. *)
Inductive Status : Type :=
| Running (self : Game)
| GameOver (self : Game).

Section Loop.

Variable draws : nat -> Z.

Definition from_curses_window (fuel : nat) (window : Window) (debug : bool)
  : M Game :=
  let center_coord := get_window_center window in
  let snake := [center_coord] in
  food <- create_random_food draws fuel window snake ;;
  let direction := DOWN in
  ret (mkGame snake food direction debug).

(** The control step: a polled direction is taken unless it reverses. *)
Definition poll_direction (key : Z) (self : Game) : Direction :=
  match get_direction key with
  | Some new_direction =>
      if negb (is_opposite new_direction (self_direction self))
      then new_direction
      else self_direction self
  | None => self_direction self
  end.

(** One iteration of [Game.main_loop]'s [while True]; [key] is what
    [window.getch()] returns in this iteration. *)
Definition tick (fuel : nat) (window : Window) (key : Z) (self : Game)
  : M Tick :=
  let direction := poll_direction key self in
  can_grow <- can_eat_food (self_snake self) (self_food self) ;;
  food <- (if can_grow
           then create_random_food draws fuel window (self_snake self)
           else ret (self_food self)) ;;
  snake <- snake_move (self_snake self) direction can_grow ;;
  let self := mkGame snake food direction (self_debug self) in
  further <- can_go_further window snake direction ;;
  if negb further then ret (Break self)
  else
    _ <- snake_head snake ;;
    timeout <- calculate_frame_timeout snake direction ;;
    ret (Continue self timeout).

(** [Game.main_loop] over the keys polled tick by tick: the frames drawn,
    in order, and how the run ends. *)
Fixpoint main_loop (fuel : nat) (window : Window) (keys : list Z)
  (self : Game) : M (list (Game * Q) * Status) :=
  match keys with
  | [] => ret ([], Running self)
  | key :: keys' =>
      out <- tick fuel window key self ;;
      match out with
      | Break self' => ret ([], GameOver self')
      | Continue self' timeout =>
          rest <- main_loop fuel window keys' self' ;;
          ret ((self', timeout) :: fst rest, snd rest)
      end
  end.

(** The states the loop passes through while it keeps running. *)
Inductive reachable (window : Window) : Game -> Prop :=
| reachable_start fuel debug pos self pos' :
    from_curses_window fuel window debug pos = Ok (self, pos') ->
    reachable window self
| reachable_tick fuel key pos self self' timeout pos' :
    reachable window self ->
    tick fuel window key self pos = Ok (Continue self' timeout, pos') ->
    reachable window self'.

End Loop.

(** The game state a tick leaves behind, whichever way it ends. *)
Definition Tick_game (out : Tick) : Game :=
  match out with
  | Continue self _ => self
  | Break self => self
  end.

(** The arena of a window: rows [0..max_y], columns [0..max_x]. *)
Definition max_y (window : Window) : Z := fst (get_window_max_yx window).
Definition max_x (window : Window) : Z := snd (get_window_max_yx window).

Definition inside_arena (window : Window) (c : Coord) : Prop :=
  BORDER <= y c <= max_y window - BORDER /\
  BORDER <= x c <= max_x window - BORDER.

(** The band the spawner samples from: the margin is the [border = 5] of
    [random_outside_snake]. *)
Definition inside_band (window : Window) (c : Coord) : Prop :=
  5 <= y c <= max_y window - 5 /\ 5 <= x c <= max_x window - 5.

(** The coordinate [random_inside_window window 5] builds from the two draws
    at the cursor, when neither range is empty. *)
Definition sample (draws : nat -> Z) (window : Window) (pos : nat) : Coord :=
  mkCoord (5 + draws pos mod (max_y window - 5 - 5 + 1))
          (5 + draws (S pos) mod (max_x window - 5 - 5 + 1)).

(** The snake lies on every cell of the band. *)
Definition covers_band (window : Window) (snake : Snake) : Prop :=
  forall c, inside_band window c -> In c snake.

(** ** Binary64 arithmetic

    Python's [float] is IEEE 754 binary64, and [/], [*] and [+] each return
    the exact result rounded to the nearest representable number, ties to
    even. [binary64] is that rounding, on rationals: a 53-bit significand
    at the exponent of the value. Overflow and subnormal numbers are left
    out; every value [calculate_frame_timeout] computes is far from both. *)

(** The nearest integer, ties to even. *)
Definition rne (q : Q) : Z :=
  let f := Qfloor q in
  match (q - inject_Z f ?= 1 # 2)%Q with
  | Lt => f
  | Gt => f + 1
  | Eq => if Z.even f then f else f + 1
  end.

(** The exponent [e] of a positive rational: [2 ^ e <= x < 2 ^ (e + 1)]. *)
Definition Qlog2 (x : Q) : Z :=
  let k := Z.log2 (Qnum x) - Z.log2 (Zpos (Qden x)) in
  if Qle_bool (2 ^ k) x then k else k - 1.

Definition binary64 (x : Q) : Q :=
  match Qnum x with
  | Z0 => 0%Q
  | Zpos _ =>
      let e := Qlog2 x in
      (inject_Z (rne (x * 2 ^ (52 - e))) * 2 ^ (e - 52))%Q
  | Zneg _ =>
      let e := Qlog2 (- x) in
      (- (inject_Z (rne (- x * 2 ^ (52 - e))) * 2 ^ (e - 52)))%Q
  end.

(** [TIC = 1 / 6] as the float it is. *)
Definition TIC_binary64 : Q := binary64 (1 / 6).

(** The arithmetic of [calculate_frame_timeout] at a snake length, every
    operation rounded: [1 / 6], the product with the correction, the
    quotient [1 / (len * 2)] of two integers, and the sum. The corrections
    0.5 and 1 are floats as they stand. *)
Definition frame_timeout_binary64 (len : Z) (direction : Direction) : Q :=
  let snake_size_correction := binary64 (1 / inject_Z (len * 2)) in
  binary64 (binary64 (TIC_binary64 * horizontal_correction direction)
            + snake_size_correction).

(** [calculate_frame_timeout] with the float it returns, where
    [calculate_frame_timeout] above has the exact value of the formula. *)
Definition calculate_frame_timeout_binary64 (snake : Snake)
  (direction : Direction) : M Q :=
  let divisor := Z.of_nat (length snake) * 2 in
  if divisor =? 0 then raise ZeroDivisionError
  else ret (frame_timeout_binary64 (Z.of_nat (length snake)) direction).

(** A snake of a given length, all segments on one cell: what
    [[Coord(0, 0)] * len] builds. *)
Definition long_snake (len : Z) : Snake := repeat (mkCoord 0 0) (Z.to_nat len).

(** The same arithmetic on the machine's binary64 numbers, to compare
    [frame_timeout_binary64] with, and the rational a finite float stands
    for. *)
Definition prim_frame_timeout (len : Z) (direction : Direction) : float :=
  let TIC := (1 / 6)%float in
  let horizontal_correction :=
    if Direction_in direction horizontal then 0.5%float else 1%float in
  let snake_size_correction :=
    (1 / of_uint63 (Uint63.of_Z (len * 2)))%float in
  (TIC * horizontal_correction + snake_size_correction)%float.

Definition float_value (f : float) : Q :=
  match Prim2SF f with
  | S754_finite s m e =>
      ((if s then - (1) else 1) * inject_Z (Zpos m) * 2 ^ e)%Q
  | _ => 0%Q
  end.

(** Lengths at which the two are compared: the first hundred, some powers
    of two and their neighbours, and the lengths around the first tie. *)
Definition compared_lengths : list Z :=
  map Z.of_nat (seq 1 100)
  ++ [1000; 4095; 4096; 4097; 65535; 1000000; 33554432; 33554433;
      134225919; 134225920; 134225921; 134225922; 300000000; 300000001;
      4503599627370495].

(** ** Shapes of a snake *)

(** The length of a vector in grid steps. *)
Definition manhattan (c : Coord) : Z := Z.abs (y c) + Z.abs (x c).

(** Each segment is one unit step away from the segment behind it. *)
Fixpoint steps (snake : Snake) : Prop :=
  match snake with
  | a :: rest =>
      match rest with
      | b :: _ => (exists d, a = Coord_add b (from_direction d)) /\ steps rest
      | [] => True
      end
  | [] => True
  end.

(** No segment lies on the segment two places behind it. *)
Fixpoint no_backtrack (snake : Snake) : Prop :=
  match snake with
  | a :: rest =>
      match rest with
      | _ :: c :: _ => a <> c /\ no_backtrack rest
      | _ => True
      end
  | [] => True
  end.

(** With two segments or more, the head is where the committed direction
    took it from the segment behind. *)
Definition head_follows_direction (self : Game) : Prop :=
  match self_snake self with
  | head :: neck :: _ =>
      head = Coord_add neck (from_direction (self_direction self))
  | _ => True
  end.

(** ** Concrete arenas and draw sequences used in the examples *)

(** A generator whose first raw draws are listed, zero afterwards. *)
Definition draws_of (l : list Z) : nat -> Z := fun n => nth n l 0.

(** A 10 x 10 terminal: rows and columns [0..9]. *)
Definition window_10 : Window := {| getmaxyx := (10, 10) |}.
(** An 11 x 11 terminal: the spawner's band is the single cell [(5, 5)]. *)
Definition window_11 : Window := {| getmaxyx := (11, 11) |}.
(** A 21 x 21 terminal: centre [(10, 10)], band [5..15] on both axes. *)
Definition window_21 : Window := {| getmaxyx := (21, 21) |}.

(** A game on the 21 x 21 terminal in which the snake eats four times on
    its way down and then turns right, up and left, into its own body:
    the raw draws (glyph, colour, row, column per food), the keys polled
    tick by tick, and the state drawn in the last frame. *)
Definition overlap_draws : nat -> Z :=
  draws_of [0; 0; 6; 5;  0; 0; 7; 5;  0; 0; 8; 5;  0; 0; 9; 5;  0; 0; 0; 0].

Definition overlap_keys : list Z :=
  [-1; -1; -1; -1; -1; KEY_L; KEY_K; KEY_H].

Definition overlap_start : Game :=
  mkGame [mkCoord 10 10] (mkFood 37 (mkCoord 11 10) RED) DOWN false.

(** The same game after four ticks, four segments long. *)
Definition overlap_mid : Game :=
  mkGame [mkCoord 14 10; mkCoord 13 10; mkCoord 12 10; mkCoord 11 10]
         (mkFood 37 (mkCoord 14 10) RED) DOWN false.

Definition overlap_game : Game :=
  mkGame [mkCoord 14 10; mkCoord 14 11; mkCoord 15 11; mkCoord 15 10;
          mkCoord 14 10]
         (mkFood 37 (mkCoord 5 5) RED) LEFT false.

(** * Properties *)

(** ** Geometry *)

Lemma get_window_max_yx_eq window :
  get_window_max_yx window = (max_y window, max_x window).
Proof.
  unfold max_y, max_x. now destruct (get_window_max_yx window).
Qed.

Lemma Coord_eq_iff a b : Coord_eq a b = true <-> a = b.
Proof.
  unfold Coord_eq. rewrite andb_true_iff, !Z.eqb_eq.
  destruct a, b; simpl. split.
  - intros [-> ->]. reflexivity.
  - intros E. injection E as -> ->. auto.
Qed.

Lemma Coord_eq_false_iff a b : Coord_eq a b = false <-> a <> b.
Proof.
  rewrite <- Coord_eq_iff. destruct (Coord_eq a b); intuition congruence.
Qed.

Lemma Coord_in_iff c snake : Coord_in c snake = true <-> In c snake.
Proof.
  unfold Coord_in. rewrite existsb_exists. split.
  - intros [part [Hin Heq]]. apply Coord_eq_iff in Heq. now subst.
  - intros Hin. exists c. split; [assumption | now apply Coord_eq_iff].
Qed.

Lemma Coord_in_false_iff c snake : Coord_in c snake = false <-> ~ In c snake.
Proof.
  rewrite <- Coord_in_iff. destruct (Coord_in c snake); intuition congruence.
Qed.

(** A unit vector always moves the head. *)
Lemma from_direction_moves head direction :
  Coord_eq (Coord_add head (from_direction direction)) head = false.
Proof.
  apply Coord_eq_false_iff. destruct head as [hy hx].
  destruct direction; unfold Coord_add; simpl; intros E;
    injection E; lia.
Qed.

(** ** Collision and bounds checker *)

Lemma can_go_further_value window head body direction pos :
  can_go_further window (head :: body) direction pos =
  Ok (negb ((y (Coord_add head (from_direction direction)) <? BORDER)
            || (y (Coord_add head (from_direction direction))
                >? max_y window - BORDER)
            || (x (Coord_add head (from_direction direction)) <? BORDER)
            || (x (Coord_add head (from_direction direction))
                >? max_x window - BORDER)
            || Coord_in (Coord_add head (from_direction direction))
                 (head :: body)), pos).
Proof.
  unfold can_go_further, bind, snake_head, ret.
  rewrite get_window_max_yx_eq. cbn [existsb].
  rewrite orb_false_r, !orb_assoc. reflexivity.
Qed.

Lemma last_In {A} (l : list A) (d : A) : l <> [] -> In (last l d) l.
Proof.
  induction l as [|a l IH]; [congruence|]. intros _.
  destruct l as [|b l].
  - simpl. auto.
  - right. apply IH. discriminate.
Qed.

(** C3. [can_go_further] answers [False] exactly when the prospective head
    (head plus the unit vector of the direction) has a row or column outside
    [BORDER .. max - BORDER] or is a segment of the snake as it stands, the
    tail that this tick would vacate included; so it answers [False] for a
    one-segment snake in any corner of the arena heading outward. *)
Theorem can_go_further_false_iff window head body direction pos :
  let next_head_coord := Coord_add head (from_direction direction) in
  (can_go_further window (head :: body) direction pos = Ok (false, pos) <->
   (y next_head_coord < BORDER \/
    y next_head_coord > max_y window - BORDER \/
    x next_head_coord < BORDER \/
    x next_head_coord > max_x window - BORDER \/
    In next_head_coord (head :: body))) /\
  (can_go_further window (head :: body) direction pos = Ok (true, pos) \/
   can_go_further window (head :: body) direction pos = Ok (false, pos)) /\
  (next_head_coord = last (head :: body) head ->
   can_go_further window (head :: body) direction pos = Ok (false, pos)) /\
  can_go_further window [mkCoord 0 0] UP pos = Ok (false, pos) /\
  can_go_further window [mkCoord 0 0] LEFT pos = Ok (false, pos) /\
  can_go_further window [mkCoord 0 (max_x window)] UP pos = Ok (false, pos) /\
  can_go_further window [mkCoord 0 (max_x window)] RIGHT pos
    = Ok (false, pos) /\
  can_go_further window [mkCoord (max_y window) 0] DOWN pos
    = Ok (false, pos) /\
  can_go_further window [mkCoord (max_y window) 0] LEFT pos
    = Ok (false, pos) /\
  can_go_further window [mkCoord (max_y window) (max_x window)] DOWN pos
    = Ok (false, pos) /\
  can_go_further window [mkCoord (max_y window) (max_x window)] RIGHT pos
    = Ok (false, pos).
Proof.
  intros next.
  assert (Hiff : can_go_further window (head :: body) direction pos
                 = Ok (false, pos) <->
                 (y next < BORDER \/ y next > max_y window - BORDER \/
                  x next < BORDER \/ x next > max_x window - BORDER \/
                  In next (head :: body))).
  { rewrite can_go_further_value. fold next.
    rewrite <- Coord_in_iff.
    destruct (Coord_in next (head :: body)).
    - rewrite !orb_true_r. cbn. split; auto 6.
    - rewrite orb_false_r, !Z.gtb_ltb. split.
      + intros H. injection H as H. apply negb_false_iff in H.
        rewrite !orb_true_iff, !Z.ltb_lt in H.
        unfold next; cbn [y x Coord_add] in *. lia.
      + intros H. f_equal. f_equal. apply negb_false_iff.
        rewrite !orb_true_iff, !Z.ltb_lt.
        unfold next in *; cbn [y x Coord_add] in *.
        destruct H as [H|[H|[H|[H|H]]]]; try discriminate; lia. }
  split; [exact Hiff|].
  split.
  { rewrite can_go_further_value.
    match goal with |- Ok (negb ?b, _) = _ \/ _ => destruct b end; auto. }
  split.
  { intros Hlast. apply Hiff. do 4 right. rewrite Hlast.
    apply last_In. discriminate. }
  rewrite !can_go_further_value. unfold BORDER. cbn -[Z.ltb Z.gtb max_y max_x].
  repeat split; f_equal; f_equal.
  all: repeat match goal with
       | |- context [?a <? ?b] => destruct (Z.ltb_spec a b); try lia
       | |- context [?a >? ?b] =>
           rewrite (Z.gtb_ltb a b); destruct (Z.ltb_spec b a); try lia
       end; cbn; try reflexivity.
Qed.

Lemma can_go_further_false_iff_witness :
  Coord_add (mkCoord 2 2) (from_direction DOWN)
    = last [mkCoord 2 2; mkCoord 2 3; mkCoord 3 3; mkCoord 3 2]
        (mkCoord 2 2) /\
  can_go_further window_21
    [mkCoord 2 2; mkCoord 2 3; mkCoord 3 3; mkCoord 3 2] DOWN 0%nat
    = Ok (false, 0%nat) /\
  can_go_further window_21 [mkCoord 0 0] UP 0%nat = Ok (false, 0%nat).
Proof.
  pose proof (can_go_further_false_iff window_21 (mkCoord 2 2)
                [mkCoord 2 3; mkCoord 3 3; mkCoord 3 2] DOWN 0%nat)
    as [_ [_ [Htail [Hcorner _]]]].
  split; [reflexivity|]. split; [apply Htail; reflexivity | exact Hcorner].
Defined.

(** ** Snake model *)

(** C4. On a non-empty snake and for each of the four directions,
    [snake_move] puts the new head, the old head plus the direction's unit
    vector, in front; without growth it also drops the last segment and the
    length stays what it was, with growth it drops nothing and the length
    goes up by one. *)
Theorem snake_move_prepends head body direction pos :
  let snake := head :: body in
  let new_head := Coord_add head (from_direction direction) in
  snake_move snake direction false pos
    = Ok (new_head :: removelast snake, pos) /\
  new_head :: removelast snake = removelast (new_head :: snake) /\
  length (new_head :: removelast snake) = length snake /\
  snake_move snake direction true pos = Ok (new_head :: snake, pos) /\
  length (new_head :: snake) = S (length snake).
Proof.
  intros snake new_head.
  assert (Hlen : length (removelast snake) = length body).
  { unfold snake. clear. revert head.
    induction body as [|b body IH]; intros head; [reflexivity|].
    change (removelast (head :: b :: body))
      with (head :: removelast (b :: body)).
    cbn [length]. f_equal. apply IH. }
  unfold snake_move, bind, snake_head, ret. cbn [snake].
  rewrite from_direction_moves. fold new_head.
  repeat split.
  cbn [length]. rewrite Hlen. reflexivity.
Qed.

(** ** Food spawner *)

Section Spawner.

Variable draws : nat -> Z.

Lemma randint_range a b pos v pos' :
  randint draws a b pos = Ok (v, pos') -> a <= v <= b /\ pos' = S pos.
Proof.
  unfold randint. destruct (Z.ltb_spec b a) as [Hlt|Hle]; [discriminate|].
  intros E. injection E as <- <-.
  pose proof (Z.mod_pos_bound (draws pos) (b - a + 1)). lia.
Qed.

Lemma random_inside_window_range window border pos c pos' :
  random_inside_window draws window border pos = Ok (c, pos') ->
  border <= y c <= max_y window - border /\
  border <= x c <= max_x window - border.
Proof.
  unfold random_inside_window. rewrite get_window_max_yx_eq.
  unfold bind, ret.
  destruct (randint draws border (max_y window - border) pos)
    as [[vy p1]| |] eqn:Ey; try discriminate.
  destruct (randint draws border (max_x window - border) p1)
    as [[vx p2]| |] eqn:Ex; try discriminate.
  intros E. injection E as <- <-. cbn [y x].
  apply randint_range in Ey. apply randint_range in Ex. lia.
Qed.

Lemma random_inside_window_sample window pos :
  10 <= max_y window -> 10 <= max_x window ->
  random_inside_window draws window 5 pos
    = Ok (sample draws window pos, S (S pos)).
Proof.
  intros Hy Hx. unfold random_inside_window.
  rewrite get_window_max_yx_eq. unfold bind, ret, randint.
  destruct (Z.ltb_spec (max_y window - 5) 5); [lia|].
  destruct (Z.ltb_spec (max_x window - 5) 5); [lia|].
  reflexivity.
Qed.

Lemma random_inside_window_empty window pos :
  max_y window < 10 \/ max_x window < 10 ->
  random_inside_window draws window 5 pos = Raise ValueError.
Proof.
  intros H. unfold random_inside_window.
  rewrite get_window_max_yx_eq. unfold bind, ret, randint.
  destruct (Z.ltb_spec (max_y window - 5) 5); [reflexivity|].
  destruct (Z.ltb_spec (max_x window - 5) 5); [reflexivity|lia].
Qed.

Lemma sample_inside_band window pos :
  10 <= max_y window -> 10 <= max_x window ->
  inside_band window (sample draws window pos).
Proof.
  intros Hy Hx. unfold inside_band, sample. cbn [y x].
  pose proof (Z.mod_pos_bound (draws pos) (max_y window - 5 - 5 + 1)).
  pose proof (Z.mod_pos_bound (draws (S pos)) (max_x window - 5 - 5 + 1)).
  lia.
Qed.

(** One unfolding of the loop. *)
Lemma random_outside_snake_step fuel window snake pos :
  random_outside_snake draws fuel window snake pos =
  match random_inside_window draws window 5 pos with
  | Ok (c, pos') =>
      if Coord_in c snake then
        match fuel with
        | O => Diverge
        | S fuel' => random_outside_snake draws fuel' window snake pos'
        end
      else Ok (c, pos')
  | Raise e => Raise e
  | Diverge => Diverge
  end.
Proof.
  destruct fuel; cbn [random_outside_snake]; unfold bind, ret;
    destruct (random_inside_window draws window 5 pos) as [[c p]| |];
    try reflexivity; destruct (Coord_in c snake); reflexivity.
Qed.

(** The loop returns the first sample that is off the snake. *)
Lemma random_outside_snake_first_free window snake :
  10 <= max_y window -> 10 <= max_x window ->
  forall k fuel pos,
    (forall j, (j < k)%nat ->
       Coord_in (sample draws window (pos + 2 * j)) snake = true) ->
    Coord_in (sample draws window (pos + 2 * k)) snake = false ->
    (k <= fuel)%nat ->
    random_outside_snake draws fuel window snake pos
      = Ok (sample draws window (pos + 2 * k), (pos + 2 * k + 2)%nat).
Proof.
  intros Hy Hx. induction k as [|k IH]; intros fuel pos Hbusy Hfree Hfuel.
  - rewrite random_outside_snake_step, random_inside_window_sample by lia.
    replace (pos + 2 * 0)%nat with pos in * by lia.
    rewrite Hfree. do 2 f_equal. lia.
  - rewrite random_outside_snake_step, random_inside_window_sample by lia.
    pose proof (Hbusy O ltac:(lia)) as H0.
    replace (pos + 2 * 0)%nat with pos in H0 by lia. rewrite H0.
    destruct fuel as [|fuel]; [lia|].
    rewrite (IH fuel (S (S pos))).
    + do 3 f_equal; lia.
    + intros j Hj. specialize (Hbusy (S j) ltac:(lia)).
      replace (S (S pos) + 2 * j)%nat with (pos + 2 * S j)%nat by lia.
      exact Hbusy.
    + replace (S (S pos) + 2 * k)%nat with (pos + 2 * S k)%nat by lia.
      exact Hfree.
    + lia.
Qed.

(** With every cell of the band taken there is nothing to return. *)
Lemma random_outside_snake_covered window snake :
  10 <= max_y window -> 10 <= max_x window ->
  covers_band window snake ->
  forall fuel pos,
    random_outside_snake draws fuel window snake pos = Diverge.
Proof.
  intros Hy Hx Hcov. induction fuel as [|fuel IH]; intros pos;
    rewrite random_outside_snake_step, random_inside_window_sample by lia;
    assert (Hin : Coord_in (sample draws window pos) snake = true)
      by (apply Coord_in_iff, Hcov, sample_inside_band; lia);
    rewrite Hin; [reflexivity | apply IH].
Qed.

Lemma random_outside_snake_empty fuel window snake pos :
  max_y window < 10 \/ max_x window < 10 ->
  random_outside_snake draws fuel window snake pos = Raise ValueError.
Proof.
  intros H.
  now rewrite random_outside_snake_step, random_inside_window_empty.
Qed.

Lemma random_outside_snake_no_raise window snake :
  10 <= max_y window -> 10 <= max_x window ->
  forall fuel pos e,
    random_outside_snake draws fuel window snake pos <> Raise e.
Proof.
  intros Hy Hx. induction fuel as [|fuel IH]; intros pos e;
    rewrite random_outside_snake_step, random_inside_window_sample by lia;
    destruct (Coord_in (sample draws window pos) snake);
    try discriminate. apply IH.
Qed.

Lemma random_outside_snake_post window snake :
  forall fuel pos c pos',
    random_outside_snake draws fuel window snake pos = Ok (c, pos') ->
    Coord_in c snake = false /\ inside_band window c.
Proof.
  induction fuel as [|fuel IH]; intros pos c pos';
    rewrite random_outside_snake_step;
    destruct (random_inside_window draws window 5 pos)
      as [[c0 p0]| |] eqn:Es; try discriminate;
    destruct (Coord_in c0 snake) eqn:Ein; try discriminate.
  - intros E. injection E as <- <-. split; [assumption|].
    now apply random_inside_window_range in Es.
  - apply IH.
  - intros E. injection E as <- <-. split; [assumption|].
    now apply random_inside_window_range in Es.
Qed.

End Spawner.

(** Some sample within the fuel is free: the loop returns. *)
Lemma random_outside_snake_returns draws window snake :
  10 <= max_y window -> 10 <= max_x window ->
  forall fuel pos,
    (exists k, (k <= fuel)%nat /\
       Coord_in (sample draws window (pos + 2 * k)) snake = false) ->
    exists c pos', random_outside_snake draws fuel window snake pos
                   = Ok (c, pos').
Proof.
  intros Hy Hx. induction fuel as [|fuel IH]; intros pos [k [Hk Hfree]];
    rewrite random_outside_snake_step, random_inside_window_sample by lia;
    destruct (Coord_in (sample draws window pos) snake) eqn:E; eauto.
  - replace k with O in Hfree by lia.
    replace (pos + 2 * 0)%nat with pos in Hfree by lia. congruence.
  - destruct k as [|k].
    + replace (pos + 2 * 0)%nat with pos in Hfree by lia. congruence.
    + apply IH. exists k. split; [lia|].
      replace (S (S pos) + 2 * k)%nat with (pos + 2 * S k)%nat by lia.
      exact Hfree.
Qed.

(** Every sample the fuel allows lies on the snake: the loop is still
    running when the fuel is gone. *)
Lemma random_outside_snake_all_busy draws window snake :
  10 <= max_y window -> 10 <= max_x window ->
  forall fuel pos,
    (forall k, (k <= fuel)%nat ->
       Coord_in (sample draws window (pos + 2 * k)) snake = true) ->
    random_outside_snake draws fuel window snake pos = Diverge.
Proof.
  intros Hy Hx. induction fuel as [|fuel IH]; intros pos Hbusy;
    rewrite random_outside_snake_step, random_inside_window_sample by lia;
    pose proof (Hbusy O ltac:(lia)) as H0;
    replace (pos + 2 * 0)%nat with pos in H0 by lia; rewrite H0;
    [reflexivity|].
  apply IH. intros k Hk. specialize (Hbusy (S k) ltac:(lia)).
  replace (S (S pos) + 2 * k)%nat with (pos + 2 * S k)%nat by lia.
  exact Hbusy.
Qed.

(** C8. A coordinate returned by the food spawner is not a segment of the
    snake it was given, and its row and column both lie in the inner band
    [5 .. max - 5] of the arena. *)
Theorem random_outside_snake_postcondition
  draws fuel window snake pos c pos' :
  random_outside_snake draws fuel window snake pos = Ok (c, pos') ->
  ~ In c snake /\
  Coord_in c snake = false /\
  5 <= y c <= max_y window - 5 /\
  5 <= x c <= max_x window - 5.
Proof.
  intros H. apply random_outside_snake_post in H as [Hfree [Hy Hx]].
  split; [now apply Coord_in_false_iff|]. auto.
Qed.

Lemma random_outside_snake_postcondition_witness :
  random_outside_snake (draws_of [5; 5; 6; 5]) 1%nat window_21
    [mkCoord 10 10] 0%nat = Ok (mkCoord 11 10, 4%nat) /\
  (~ In (mkCoord 11 10) [mkCoord 10 10] /\
   Coord_in (mkCoord 11 10) [mkCoord 10 10] = false /\
   5 <= 11 <= max_y window_21 - 5 /\
   5 <= 10 <= max_x window_21 - 5).
Proof.
  split; [reflexivity|].
  apply (random_outside_snake_postcondition (draws_of [5; 5; 6; 5]) 1%nat
           window_21 [mkCoord 10 10] 0%nat (mkCoord 11 10) 4%nat).
  reflexivity.
Defined.

(** C5, as the code has it. The spawn loop has no bound on its attempts and
    no exhaustion signal: it returns at the first sample that is off the
    snake, it is still looping after any number of samples that all lie on
    the snake, and when the snake occupies the whole sampling band it never
    returns, whatever is drawn. *)
Theorem random_outside_snake_termination draws window snake :
  10 <= max_y window -> 10 <= max_x window ->
  (covers_band window snake ->
   forall fuel pos,
     random_outside_snake draws fuel window snake pos = Diverge) /\
  (forall fuel pos,
     (forall k, (k <= fuel)%nat ->
        Coord_in (sample draws window (pos + 2 * k)) snake = true) ->
     random_outside_snake draws fuel window snake pos = Diverge) /\
  (forall k fuel pos,
     (forall j, (j < k)%nat ->
        Coord_in (sample draws window (pos + 2 * j)) snake = true) ->
     Coord_in (sample draws window (pos + 2 * k)) snake = false ->
     (k <= fuel)%nat ->
     random_outside_snake draws fuel window snake pos
       = Ok (sample draws window (pos + 2 * k), (pos + 2 * k + 2)%nat)).
Proof.
  intros Hy Hx. split; [|split].
  - now apply random_outside_snake_covered.
  - now apply random_outside_snake_all_busy.
  - now apply random_outside_snake_first_free.
Qed.

Lemma covers_band_window_11 : covers_band window_11 [mkCoord 5 5].
Proof.
  intros [cy cx] [Hy Hx]. cbn in Hy, Hx. left. f_equal; lia.
Qed.

Lemma random_outside_snake_termination_witness :
  (10 <= max_y window_21 /\ 10 <= max_x window_21) /\
  random_outside_snake (draws_of [5; 5; 6; 5]) 1%nat window_21
    [mkCoord 10 10] 0%nat = Ok (mkCoord 11 10, 4%nat) /\
  (10 <= max_y window_11 /\ 10 <= max_x window_11) /\
  covers_band window_11 [mkCoord 5 5] /\
  random_outside_snake (draws_of [5; 5; 6; 5]) 1%nat window_11
    [mkCoord 5 5] 0%nat = Diverge /\
  (forall k, (k <= 0)%nat ->
     Coord_in (sample (draws_of [5; 5; 6; 5]) window_21 (0 + 2 * k))
       [mkCoord 10 10] = true) /\
  random_outside_snake (draws_of [5; 5; 6; 5]) 0%nat window_21
    [mkCoord 10 10] 0%nat = Diverge.
Proof.
  split; [cbn; lia|]. split.
  - refine (proj2 (proj2 (random_outside_snake_termination
             (draws_of [5; 5; 6; 5]) window_21 [mkCoord 10 10] _ _))
             1%nat 1%nat 0%nat _ _ _).
    + cbn; lia.
    + cbn; lia.
    + intros j Hj. replace j with 0%nat by lia. reflexivity.
    + reflexivity.
    + lia.
  - split; [cbn; lia|]. split; [exact covers_band_window_11|].
    split.
    + refine (proj1 (random_outside_snake_termination
               (draws_of [5; 5; 6; 5]) window_11 [mkCoord 5 5] _ _)
               covers_band_window_11 1%nat 0%nat); cbn; lia.
    + assert (Hbusy : forall k, (k <= 0)%nat ->
                Coord_in (sample (draws_of [5; 5; 6; 5]) window_21
                            (0 + 2 * k)) [mkCoord 10 10] = true)
        by (intros k Hk; replace k with 0%nat by lia; reflexivity).
      split; [exact Hbusy|].
      refine (proj1 (proj2 (random_outside_snake_termination
               (draws_of [5; 5; 6; 5]) window_21 [mkCoord 10 10] _ _))
               0%nat 0%nat Hbusy); cbn; lia.
Defined.

(** C5 fails on the code: on an 11 x 11 terminal the band is the one cell
    [(5, 5)], the centre, where the one-segment snake starts; the spawn loop
    then neither returns nor raises, whatever the generator draws and
    however long it is run. *)
Lemma random_outside_snake_loops_forever :
  get_window_center window_11 = mkCoord 5 5 /\
  forall draws fuel pos,
    random_outside_snake draws fuel window_11 [mkCoord 5 5] pos = Diverge.
Proof.
  split; [reflexivity|]. intros draws fuel pos.
  apply random_outside_snake_covered;
    [cbn; lia | cbn; lia | exact covers_band_window_11].
Qed.

(** C10, as the code has it. With a maximum row or column index below 10
    the range [randint(5, max - 5)] is empty and the spawner raises
    [ValueError] instead of returning a coordinate. With both maxima at
    least 10 it never raises, and it returns a coordinate provided one of
    the samples it may draw is off the snake. *)
Theorem random_outside_snake_arena_size draws fuel window snake pos :
  (max_y window < 10 \/ max_x window < 10 ->
   random_outside_snake draws fuel window snake pos = Raise ValueError) /\
  (10 <= max_y window -> 10 <= max_x window ->
   (forall e, random_outside_snake draws fuel window snake pos <> Raise e) /\
   ((exists k, (k <= fuel)%nat /\
       Coord_in (sample draws window (pos + 2 * k)) snake = false) ->
    exists c pos',
      random_outside_snake draws fuel window snake pos = Ok (c, pos') /\
      Coord_in c snake = false /\ inside_band window c)).
Proof.
  split.
  - apply random_outside_snake_empty.
  - intros Hy Hx. split.
    + intros e. now apply random_outside_snake_no_raise.
    + intros Hfree.
      destruct (random_outside_snake_returns draws window snake Hy Hx
                  fuel pos Hfree) as [c [pos' E]].
      exists c, pos'. split; [exact E|].
      eapply random_outside_snake_post; eassumption.
Qed.

Lemma random_outside_snake_arena_size_witness :
  (max_y window_10 < 10 \/ max_x window_10 < 10) /\
  random_outside_snake (draws_of [5; 5; 6; 5]) 1%nat window_10
    [mkCoord 4 4] 0%nat = Raise ValueError /\
  (10 <= max_y window_21 /\ 10 <= max_x window_21) /\
  (exists k, (k <= 1)%nat /\
     Coord_in (sample (draws_of [5; 5; 6; 5]) window_21 (0 + 2 * k))
       [mkCoord 10 10] = false) /\
  (exists c pos',
     random_outside_snake (draws_of [5; 5; 6; 5]) 1%nat window_21
       [mkCoord 10 10] 0%nat = Ok (c, pos') /\
     Coord_in c [mkCoord 10 10] = false /\ inside_band window_21 c).
Proof.
  assert (Hsmall : max_y window_10 < 10 \/ max_x window_10 < 10)
    by (left; cbn; lia).
  assert (Hy : 10 <= max_y window_21) by (cbn; lia).
  assert (Hx : 10 <= max_x window_21) by (cbn; lia).
  assert (Hfree : exists k, (k <= 1)%nat /\
            Coord_in (sample (draws_of [5; 5; 6; 5]) window_21 (0 + 2 * k))
              [mkCoord 10 10] = false)
    by (exists 1%nat; split; [lia | reflexivity]).
  split; [exact Hsmall|]. split.
  - exact (proj1 (random_outside_snake_arena_size (draws_of [5; 5; 6; 5])
             1%nat window_10 [mkCoord 4 4] 0%nat) Hsmall).
  - split; [split; assumption|]. split; [exact Hfree|].
    exact (proj2 (proj2 (random_outside_snake_arena_size
             (draws_of [5; 5; 6; 5]) 1%nat window_21 [mkCoord 10 10] 0%nat)
             Hy Hx) Hfree).
Defined.

(** C10 fails on the code in its last part: an 11 x 11 terminal has both
    maxima equal to 10, yet the call the game makes at start-up, with the
    one-segment snake at the centre, returns no coordinate. *)
Lemma random_outside_snake_no_coordinate :
  (10 <= max_y window_11 /\ 10 <= max_x window_11) /\
  forall draws fuel pos c pos',
    random_outside_snake draws fuel window_11
      [get_window_center window_11] pos <> Ok (c, pos').
Proof.
  split; [cbn; lia|].
  intros draws fuel pos c pos'.
  change (get_window_center window_11) with (mkCoord 5 5).
  rewrite random_outside_snake_covered;
    [discriminate | cbn; lia | cbn; lia | exact covers_band_window_11].
Qed.

(** ** Pacing *)

Lemma calculate_frame_timeout_value snake direction pos :
  snake <> [] ->
  calculate_frame_timeout snake direction pos =
  Ok ((TIC * horizontal_correction direction
       + 1 / inject_Z (Z.of_nat (length snake) * 2))%Q, pos).
Proof.
  intros Hne. unfold calculate_frame_timeout.
  destruct (Z.eqb_spec (Z.of_nat (length snake) * 2) 0) as [E|_].
  - destruct snake; [congruence | cbn [length] in E; lia].
  - reflexivity.
Qed.

Lemma calculate_frame_timeout_empty direction pos :
  calculate_frame_timeout [] direction pos = Raise ZeroDivisionError.
Proof. reflexivity. Qed.

(** The size correction [1 / (len * 2)] is positive and shrinks as the
    length goes up. *)
Lemma size_correction_pos (n : nat) :
  (1 <= n)%nat -> (0 < 1 / inject_Z (Z.of_nat n * 2))%Q.
Proof.
  intros Hn. destruct (Z.of_nat n * 2) as [|p|p] eqn:E; try lia.
  reflexivity.
Qed.

Lemma size_correction_lt (m n : nat) :
  (1 <= m)%nat -> (m < n)%nat ->
  (1 / inject_Z (Z.of_nat n * 2) < 1 / inject_Z (Z.of_nat m * 2))%Q.
Proof.
  intros Hm Hmn.
  destruct (Z.of_nat n * 2) as [|p|p] eqn:En; try lia.
  destruct (Z.of_nat m * 2) as [|q|q] eqn:Em; try lia.
  unfold Qlt. cbn. lia.
Qed.

Lemma size_correction_le (m n : nat) :
  (1 <= m)%nat -> (m <= n)%nat ->
  (1 / inject_Z (Z.of_nat n * 2) <= 1 / inject_Z (Z.of_nat m * 2))%Q.
Proof.
  intros Hm Hmn.
  destruct (Z.of_nat n * 2) as [|p|p] eqn:En; try lia.
  destruct (Z.of_nat m * 2) as [|q|q] eqn:Em; try lia.
  unfold Qle. cbn. lia.
Qed.


Lemma length_pos_nonempty {A} (l : list A) : (1 <= length l)%nat -> l <> [].
Proof. destruct l; cbn; [lia | discriminate]. Qed.




(** ** The game loop *)

Lemma bind_Ok_inv {A B} (m : M A) (k : A -> M B) pos b pos' :
  bind m k pos = Ok (b, pos') ->
  exists a p, m pos = Ok (a, p) /\ k a p = Ok (b, pos').
Proof.
  unfold bind. destruct (m pos) as [[a p]| |]; try discriminate. eauto.
Qed.

Lemma can_go_further_pos window snake direction pos further pos' :
  can_go_further window snake direction pos = Ok (further, pos') ->
  pos' = pos.
Proof.
  destruct snake as [|head body]; [discriminate|].
  rewrite can_go_further_value. congruence.
Qed.

Lemma calculate_frame_timeout_pos snake direction pos timeout pos' :
  calculate_frame_timeout snake direction pos = Ok (timeout, pos') ->
  pos' = pos.
Proof.
  destruct snake as [|head body]; [discriminate|].
  rewrite calculate_frame_timeout_value by discriminate. congruence.
Qed.

Lemma snake_move_value head body direction can_grow pos :
  snake_move (head :: body) direction can_grow pos =
  Ok ((if can_grow
       then Coord_add head (from_direction direction) :: head :: body
       else Coord_add head (from_direction direction)
              :: removelast (head :: body)), pos).
Proof.
  unfold snake_move, bind, snake_head, ret.
  rewrite from_direction_moves. destruct can_grow; reflexivity.
Qed.

Section TickFacts.

Variable draws : nat -> Z.

(** A tick on a non-empty snake, with the move carried out. *)
Lemma tick_value fuel window key head body food direction debug pos :
  let self := mkGame (head :: body) food direction debug in
  let can_grow := Coord_eq head (coord food) in
  let d := poll_direction key self in
  let new_head := Coord_add head (from_direction d) in
  let snake := if can_grow then new_head :: head :: body
               else new_head :: removelast (head :: body) in
  tick draws fuel window key self pos =
  (food' <- (if can_grow
             then create_random_food draws fuel window (head :: body)
             else ret food) ;;
   further <- can_go_further window snake d ;;
   if negb further then ret (Break (mkGame snake food' d debug))
   else
     timeout <- calculate_frame_timeout snake d ;;
     ret (Continue (mkGame snake food' d debug) timeout)) pos.
Proof.
  intros self can_grow d new_head snake.
  unfold tick. cbn [self_snake self_food self_direction self_debug self].
  fold self. fold d.
  unfold can_eat_food, bind, snake_head, ret. fold can_grow.
  destruct (if can_grow
            then create_random_food draws fuel window (head :: body)
            else fun pos0 => Ok (food, pos0)) as [[food' p1]| |];
    try reflexivity.
  rewrite snake_move_value. fold new_head. fold snake.
  destruct (can_go_further window snake d p1) as [[further p2]| |];
    try reflexivity.
  destruct further; cbn [negb]; [|reflexivity].
  assert (Hsnake : exists h b, snake = h :: b)
    by (unfold snake; destruct can_grow; eauto).
  destruct Hsnake as [h [b ->]]. reflexivity.
Qed.

(** What a tick that returns has done. *)
Lemma tick_inv fuel window key self pos out pos' :
  tick draws fuel window key self pos = Ok (out, pos') ->
  exists head body food',
    self_snake self = head :: body /\
    let can_grow := Coord_eq head (coord (self_food self)) in
    let d := poll_direction key self in
    let new_head := Coord_add head (from_direction d) in
    let snake := if can_grow then new_head :: head :: body
                 else new_head :: removelast (head :: body) in
    (if can_grow
     then create_random_food draws fuel window (head :: body)
     else ret (self_food self)) pos = Ok (food', pos') /\
    Tick_game out = mkGame snake food' d (self_debug self) /\
    can_go_further window snake d pos'
      = Ok (match out with Continue _ _ => true | Break _ => false end,
            pos').
Proof.
  destruct self as [snake food direction debug].
  destruct snake as [|head body]; [intros H; cbv in H; discriminate|].
  rewrite tick_value. cbn [self_snake self_food self_direction self_debug].
  intros H. exists head, body.
  apply bind_Ok_inv in H as (food' & p1 & Hfood & H).
  apply bind_Ok_inv in H as (further & p2 & Hfurther & H).
  pose proof (can_go_further_pos _ _ _ _ _ _ Hfurther) as ->.
  exists food'. cbn zeta.
  destruct further; cbn [negb] in H.
  - apply bind_Ok_inv in H as (timeout & p3 & Htimeout & H).
    pose proof (calculate_frame_timeout_pos _ _ _ _ _ Htimeout) as ->.
    unfold ret in H. injection H as <- <-.
    split; [reflexivity|]. split; [exact Hfood|].
    split; [reflexivity | exact Hfurther].
  - unfold ret in H. injection H as <- <-.
    split; [reflexivity|]. split; [exact Hfood|].
    split; [reflexivity | exact Hfurther].
Qed.

End TickFacts.

(** A tick whose head is not on the food returns, draws nothing and moves
    the snake without growth. *)
Lemma tick_no_eat draws fuel window key head body food direction debug pos :
  Coord_eq head (coord food) = false ->
  let self := mkGame (head :: body) food direction debug in
  let d := poll_direction key self in
  let snake := Coord_add head (from_direction d)
                 :: removelast (head :: body) in
  exists out,
    tick draws fuel window key self pos = Ok (out, pos) /\
    Tick_game out = mkGame snake food d debug /\
    can_go_further window snake d pos
      = Ok (match out with Continue _ _ => true | Break _ => false end, pos).
Proof.
  intros Hfar. cbn zeta. rewrite tick_value, Hfar.
  unfold bind at 1, ret at 1. unfold bind at 1.
  rewrite can_go_further_value.
  match goal with
  | |- context [negb (negb ?c)] => destruct c
  end; cbn [negb].
  - eexists. split; [reflexivity|]. split; reflexivity.
  - unfold bind. rewrite calculate_frame_timeout_value by discriminate.
    eexists. split; [reflexivity|]. split; reflexivity.
Qed.

(** C9. A polled direction opposite to the committed one is rejected: the
    committed direction is unchanged, and the tick's move is the move in
    the prior direction. For the snake [(3,3), (3,2), (3,1)] heading right,
    a Left key leaves the direction Right and the snake moves right, to
    [(3,4), (3,3), (3,2)]. *)
Theorem opposite_direction_rejected
  draws fuel window key new_direction self pos :
  get_direction key = Some new_direction ->
  is_opposite new_direction (self_direction self) = true ->
  poll_direction key self = self_direction self /\
  (forall out pos',
     tick draws fuel window key self pos = Ok (out, pos') ->
     self_direction (Tick_game out) = self_direction self /\
     exists can_grow,
       snake_move (self_snake self) (self_direction self) can_grow pos'
         = Ok (self_snake (Tick_game out), pos')) /\
  (self_snake self = [mkCoord 3 3; mkCoord 3 2; mkCoord 3 1] ->
   self_direction self = RIGHT ->
   new_direction = LEFT ->
   coord (self_food self) <> mkCoord 3 3 ->
   exists out,
     tick draws fuel window key self pos = Ok (out, pos) /\
     Tick_game out
       = mkGame [mkCoord 3 4; mkCoord 3 3; mkCoord 3 2] (self_food self)
           RIGHT (self_debug self)).
Proof.
  intros Hkey Hopp.
  assert (Hpoll : poll_direction key self = self_direction self).
  { unfold poll_direction. rewrite Hkey, Hopp. reflexivity. }
  split; [exact Hpoll|]. split.
  - intros out pos' Htick.
    apply tick_inv in Htick
      as (head & body & food' & Hsnake & _ & Hgame & _).
    rewrite Hpoll in Hgame. rewrite Hgame.
    cbn [self_direction self_snake]. split; [reflexivity|].
    exists (Coord_eq head (coord (self_food self))).
    rewrite Hsnake. apply snake_move_value.
  - intros Hsnake Hdir _ Hfood.
    destruct self as [snake food direction debug].
    cbn [self_snake self_food self_direction self_debug] in *. subst.
    assert (Hfar : Coord_eq (mkCoord 3 3) (coord food) = false).
    { apply Coord_eq_false_iff. congruence. }
    destruct (tick_no_eat draws fuel window key (mkCoord 3 3)
                [mkCoord 3 2; mkCoord 3 1] food RIGHT debug pos Hfar)
      as [out [Htick [Hgame _]]].
    exists out. split; [exact Htick|].
    rewrite Hgame, Hpoll. reflexivity.
Qed.

Lemma opposite_direction_rejected_witness :
  get_direction KEY_H = Some LEFT /\
  is_opposite LEFT RIGHT = true /\
  poll_direction KEY_H
    (mkGame [mkCoord 3 3; mkCoord 3 2; mkCoord 3 1]
       (mkFood 37 (mkCoord 7 7) RED) RIGHT false) = RIGHT /\
  exists out,
    tick (draws_of []) 0%nat window_21 KEY_H
      (mkGame [mkCoord 3 3; mkCoord 3 2; mkCoord 3 1]
         (mkFood 37 (mkCoord 7 7) RED) RIGHT false) 0%nat
      = Ok (out, 0%nat) /\
    Tick_game out
      = mkGame [mkCoord 3 4; mkCoord 3 3; mkCoord 3 2]
          (mkFood 37 (mkCoord 7 7) RED) RIGHT false /\
    self_direction (Tick_game out) = RIGHT /\
    exists can_grow,
      snake_move [mkCoord 3 3; mkCoord 3 2; mkCoord 3 1] RIGHT can_grow
        0%nat = Ok (self_snake (Tick_game out), 0%nat).
Proof.
  split; [reflexivity|]. split; [reflexivity|].
  pose proof (opposite_direction_rejected (draws_of []) 0%nat window_21
                KEY_H LEFT
                (mkGame [mkCoord 3 3; mkCoord 3 2; mkCoord 3 1]
                   (mkFood 37 (mkCoord 7 7) RED) RIGHT false) 0%nat
                eq_refl eq_refl) as [Hpoll [Hmove Hscenario]].
  split; [exact Hpoll|].
  destruct (Hscenario eq_refl eq_refl eq_refl ltac:(discriminate))
    as [out [Htick Hgame]].
  exists out. split; [exact Htick|]. split; [exact Hgame|].
  exact (Hmove out 0%nat Htick).
Defined.

Lemma create_random_food_post draws fuel window snake pos food pos' :
  create_random_food draws fuel window snake pos = Ok (food, pos') ->
  Coord_in (coord food) snake = false /\ inside_band window (coord food).
Proof.
  unfold create_random_food. intros H.
  apply bind_Ok_inv in H as (image & p1 & _ & H).
  apply bind_Ok_inv in H as (color & p2 & _ & H).
  apply bind_Ok_inv in H as (c & p3 & Hc & H).
  unfold ret in H. injection H as <- <-. cbn [coord].
  eapply random_outside_snake_post; eassumption.
Qed.

Lemma create_random_food_empty draws fuel window snake pos :
  max_y window < 10 \/ max_x window < 10 ->
  create_random_food draws fuel window snake pos = Raise ValueError.
Proof.
  intros Hsmall. unfold create_random_food, bind, choice.
  cbn [food_images food_colors].
  now rewrite random_outside_snake_empty.
Qed.

(** C2, as the code has it. Snake [(5,5)] heading right, food at (5,6), in
    an arena that holds (5,7): one tick moves the snake to [(5,6)], still one
    segment long, and leaves the food at (5,6), because the eat check runs
    before the move, on the old head. The tick after that is the one that
    eats: if it returns, the snake is [(5,7), (5,6)] and the new food, drawn
    against the body [(5,6)], is off (5,6) and inside the band; in an arena
    with a maximum below 10, the 10 x 10 one included, that tick raises
    [ValueError] in the spawner. *)
Theorem tick_eats_one_tick_later
  draws fuel window key image color debug pos :
  let food := mkFood image (mkCoord 5 6) color in
  let start := mkGame [mkCoord 5 5] food RIGHT debug in
  let moved := mkGame [mkCoord 5 6] food RIGHT debug in
  poll_direction key start = RIGHT ->
  5 <= max_y window -> 7 <= max_x window ->
  (exists timeout,
     tick draws fuel window key start pos
       = Ok (Continue moved timeout, pos)) /\
  (forall key' out pos',
     poll_direction key' moved = RIGHT ->
     tick draws fuel window key' moved pos = Ok (out, pos') ->
     self_snake (Tick_game out) = [mkCoord 5 7; mkCoord 5 6] /\
     coord (self_food (Tick_game out)) <> mkCoord 5 6 /\
     inside_band window (coord (self_food (Tick_game out)))) /\
  (max_y window < 10 \/ max_x window < 10 ->
   forall key', tick draws fuel window key' moved pos = Raise ValueError).
Proof.
  intros food start moved Hpoll Hy Hx. split; [|split].
  - destruct (tick_no_eat draws fuel window key (mkCoord 5 5) [] food RIGHT
                debug pos eq_refl) as [out [Htick [Hgame Hfurther]]].
    fold start in Htick, Hgame, Hfurther.
    rewrite Hpoll in Hgame, Hfurther.
    change (Coord_add (mkCoord 5 5) (from_direction RIGHT)
              :: removelast [mkCoord 5 5]) with [mkCoord 5 6]
      in Hgame, Hfurther.
    rewrite can_go_further_value in Hfurther.
    cbn [Coord_add from_direction y x Coord_in existsb Coord_eq]
      in Hfurther.
    unfold BORDER in Hfurther.
    replace (5 + 0 <? 0) with false in Hfurther by reflexivity.
    replace (6 + (0 + 1) <? 0) with false in Hfurther by reflexivity.
    replace (5 + 0 >? max_y window - 0) with false in Hfurther
      by (symmetry; rewrite Z.gtb_ltb; apply Z.ltb_ge; lia).
    replace (6 + (0 + 1) >? max_x window - 0) with false in Hfurther
      by (symmetry; rewrite Z.gtb_ltb; apply Z.ltb_ge; lia).
    cbn in Hfurther.
    destruct out as [self' timeout | self'];
      [|discriminate].
    cbn [Tick_game] in Hgame. subst self'.
    exists timeout. exact Htick.
  - intros key' out pos' Hpoll' Htick.
    apply tick_inv in Htick
      as (head & body & food' & Hsnake & Hfood & Hgame & _).
    cbn [moved self_snake] in Hsnake. injection Hsnake as <- <-.
    cbn [moved self_food food coord] in Hfood.
    change (Coord_eq (mkCoord 5 6) (mkCoord 5 6)) with true in Hfood, Hgame.
    cbn iota in Hfood, Hgame.
    rewrite Hpoll' in Hgame. rewrite Hgame.
    cbn [self_snake self_food].
    apply create_random_food_post in Hfood as [Hoff Hband].
    split; [reflexivity|]. split; [|exact Hband].
    apply Coord_in_false_iff in Hoff. intros E. apply Hoff.
    rewrite E. left. reflexivity.
  - intros Hsmall key'. unfold moved. rewrite tick_value.
    cbn [food coord].
    change (Coord_eq (mkCoord 5 6) (mkCoord 5 6)) with true. cbn iota.
    unfold bind at 1. now rewrite create_random_food_empty.
Qed.

Lemma tick_eats_one_tick_later_witness :
  poll_direction (-1)
    (mkGame [mkCoord 5 5] (mkFood 37 (mkCoord 5 6) RED) RIGHT false)
    = RIGHT /\
  5 <= max_y window_10 /\ 7 <= max_x window_10 /\
  (exists timeout,
     tick (draws_of []) 0%nat window_10 (-1)
       (mkGame [mkCoord 5 5] (mkFood 37 (mkCoord 5 6) RED) RIGHT false)
       0%nat
     = Ok (Continue
             (mkGame [mkCoord 5 6] (mkFood 37 (mkCoord 5 6) RED) RIGHT false)
             timeout, 0%nat)) /\
  tick (draws_of []) 0%nat window_10 (-1)
    (mkGame [mkCoord 5 6] (mkFood 37 (mkCoord 5 6) RED) RIGHT false) 0%nat
    = Raise ValueError /\
  (5 <= max_y window_21 /\ 7 <= max_x window_21) /\
  tick (draws_of []) 0%nat window_21 (-1)
    (mkGame [mkCoord 5 6] (mkFood 37 (mkCoord 5 6) RED) RIGHT false) 0%nat
    = Ok (Continue
            (mkGame [mkCoord 5 7; mkCoord 5 6] (mkFood 37 (mkCoord 5 5) RED)
               RIGHT false)
            ((TIC * horizontal_correction RIGHT
              + 1 / inject_Z (Z.of_nat
                                (length [mkCoord 5 7; mkCoord 5 6]) * 2))%Q),
          4%nat) /\
  ([mkCoord 5 7; mkCoord 5 6] = [mkCoord 5 7; mkCoord 5 6] /\
   mkCoord 5 5 <> mkCoord 5 6 /\
   inside_band window_21 (mkCoord 5 5)).
Proof.
  assert (Hy : 5 <= max_y window_10) by (cbn; lia).
  assert (Hx : 7 <= max_x window_10) by (cbn; lia).
  assert (Hy' : 5 <= max_y window_21) by (cbn; lia).
  assert (Hx' : 7 <= max_x window_21) by (cbn; lia).
  pose proof (tick_eats_one_tick_later (draws_of []) 0%nat window_10 (-1)
                37 RED false 0%nat eq_refl Hy Hx) as [Hfirst [_ Hraise]].
  pose proof (tick_eats_one_tick_later (draws_of []) 0%nat window_21 (-1)
                37 RED false 0%nat eq_refl Hy' Hx') as [_ [Hnext _]].
  split; [reflexivity|]. split; [exact Hy|]. split; [exact Hx|].
  split; [exact Hfirst|].
  split; [apply Hraise; left; cbn; lia|].
  split; [split; assumption|].
  assert (Htick : tick (draws_of []) 0%nat window_21 (-1)
            (mkGame [mkCoord 5 6] (mkFood 37 (mkCoord 5 6) RED) RIGHT false)
            0%nat
          = Ok (Continue
                  (mkGame [mkCoord 5 7; mkCoord 5 6]
                     (mkFood 37 (mkCoord 5 5) RED) RIGHT false)
                  ((TIC * horizontal_correction RIGHT
                    + 1 / inject_Z (Z.of_nat
                          (length [mkCoord 5 7; mkCoord 5 6]) * 2))%Q),
                4%nat)) by reflexivity.
  split; [exact Htick|].
  exact (Hnext (-1) _ _ eq_refl Htick).
Defined.

(** C2 fails on the code: on the 10 x 10 arena, with no key pressed, the
    tick returns the one-segment snake [(5,6)] and the food is still at
    (5,6); nothing has grown and nothing was relocated. *)
Lemma tick_does_not_eat_ahead :
  tick (draws_of []) 0%nat window_10 (-1)
    (mkGame [mkCoord 5 5] (mkFood 37 (mkCoord 5 6) RED) RIGHT false) 0%nat
  = Ok (Continue
          (mkGame [mkCoord 5 6] (mkFood 37 (mkCoord 5 6) RED) RIGHT false)
          ((TIC * horizontal_correction RIGHT
            + 1 / inject_Z (Z.of_nat (length [mkCoord 5 6]) * 2))%Q),
        0%nat) /\
  [mkCoord 5 6] <> [mkCoord 5 6; mkCoord 5 5] /\
  coord (mkFood 37 (mkCoord 5 6) RED) = mkCoord 5 6.
Proof.
  split; [reflexivity|]. split; [discriminate | reflexivity].
Qed.

(** ** Reachable states *)

Lemma can_go_further_true window head body direction pos pos' :
  can_go_further window (head :: body) direction pos = Ok (true, pos') ->
  inside_arena window (Coord_add head (from_direction direction)) /\
  ~ In (Coord_add head (from_direction direction)) (head :: body).
Proof.
  rewrite can_go_further_value. intros H. injection H as H _.
  apply negb_true_iff in H.
  apply orb_false_iff in H as [H Hin].
  apply orb_false_iff in H as [H Hx2].
  apply orb_false_iff in H as [H Hx1].
  apply orb_false_iff in H as [Hy1 Hy2].
  rewrite Z.gtb_ltb in Hy2, Hx2.
  apply Z.ltb_ge in Hy1, Hy2, Hx1, Hx2.
  split; [unfold inside_arena; cbn [y x Coord_add]; lia|].
  apply Coord_in_false_iff. exact Hin.
Qed.

Lemma Forall_removelast {A} (P : A -> Prop) (l : list A) :
  Forall P l -> Forall P (removelast l).
Proof.
  induction 1 as [|a l Ha Hl IH]; [constructor|].
  destruct l as [|b l]; [constructor|].
  change (removelast (a :: b :: l)) with (a :: removelast (b :: l)).
  constructor; assumption.
Qed.

(** A step along a unit vector that can be repeated inside the arena
    starts inside the arena. *)
Lemma inside_arena_between window head direction :
  inside_arena window head ->
  inside_arena window
    (Coord_add (Coord_add head (from_direction direction))
       (from_direction direction)) ->
  inside_arena window (Coord_add head (from_direction direction)).
Proof.
  unfold inside_arena. destruct head as [hy hx].
  destruct direction; cbn; lia.
Qed.

Lemma from_curses_window_inv draws fuel window debug pos self pos' :
  from_curses_window draws fuel window debug pos = Ok (self, pos') ->
  10 <= max_y window /\ 10 <= max_x window /\
  self_snake self = [get_window_center window] /\
  self_direction self = DOWN.
Proof.
  unfold from_curses_window. intros H.
  apply bind_Ok_inv in H as (food & p & Hfood & H).
  unfold ret in H. injection H as <- <-.
  assert (Hbig : 10 <= max_y window /\ 10 <= max_x window).
  { destruct (Z.lt_ge_cases (max_y window) 10) as [Hy|Hy];
      [rewrite create_random_food_empty in Hfood by auto; discriminate|].
    destruct (Z.lt_ge_cases (max_x window) 10) as [Hx|Hx];
      [rewrite create_random_food_empty in Hfood by auto; discriminate|].
    auto. }
  destruct Hbig. auto.
Qed.

(** While the loop keeps running, every segment of the snake, the head
    first of all, lies inside the arena, and the cell ahead of the head in
    the committed direction is inside the arena and free. *)
Lemma reachable_inside_arena draws window self :
  reachable draws window self ->
  Forall (inside_arena window) (self_snake self) /\
  exists head body,
    self_snake self = head :: body /\
    inside_arena window head /\
    inside_arena window
      (Coord_add head (from_direction (self_direction self))) /\
    ~ In (Coord_add head (from_direction (self_direction self)))
        (self_snake self).
Proof.
  induction 1 as [fuel debug pos self pos' Hstart
                 |fuel key pos self self' timeout pos' Hreach IH Htick].
  - apply from_curses_window_inv in Hstart as (Hy & Hx & Hsnake & Hdir).
    rewrite Hsnake, Hdir.
    assert (Hcenter : inside_arena window (get_window_center window)).
    { unfold get_window_center. rewrite get_window_max_yx_eq.
      unfold inside_arena, BORDER. cbn [y x].
      pose proof (Z.div_mod (max_y window) 2 ltac:(lia)).
      pose proof (Z.mod_pos_bound (max_y window) 2 ltac:(lia)).
      pose proof (Z.div_mod (max_x window) 2 ltac:(lia)).
      pose proof (Z.mod_pos_bound (max_x window) 2 ltac:(lia)).
      lia. }
    split; [constructor; [exact Hcenter | constructor]|].
    exists (get_window_center window), []. split; [reflexivity|].
    split; [exact Hcenter|].
    unfold get_window_center in *. rewrite get_window_max_yx_eq in *.
    unfold inside_arena, BORDER in *. cbn [y x Coord_add from_direction] in *.
    pose proof (Z.div_mod (max_y window) 2 ltac:(lia)).
    pose proof (Z.mod_pos_bound (max_y window) 2 ltac:(lia)).
    split; [lia|].
    intros [E|[]]. injection E. lia.
  - destruct IH as [Hall (head & body & Hsnake & Hhead & _ & _)].
    apply tick_inv in Htick
      as (head0 & body0 & food' & Hsnake0 & _ & Hgame & Hfurther).
    rewrite Hsnake in Hsnake0. injection Hsnake0 as <- <-.
    cbn [Tick_game] in Hgame. subst self'.
    cbn [self_snake self_direction].
    set (d := poll_direction key self) in *.
    set (new_head := Coord_add head (from_direction d)) in *.
    assert (Hmoved : exists rest,
      (if Coord_eq head (coord (self_food self))
       then new_head :: head :: body
       else new_head :: removelast (head :: body)) = new_head :: rest /\
      Forall (inside_arena window) rest).
    { rewrite Hsnake in Hall.
      destruct (Coord_eq head (coord (self_food self))); eexists;
        (split; [reflexivity|]); [exact Hall|].
      now apply Forall_removelast. }
    destruct Hmoved as [rest [Hrest Hinside]].
    rewrite Hrest in *.
    apply can_go_further_true in Hfurther as [Hnext Hfree].
    assert (Hnew : inside_arena window new_head)
      by (apply inside_arena_between; assumption).
    split; [constructor; assumption|].
    exists new_head, rest. auto.
Qed.

(** Every frame of a run from a reachable state shows a reachable state. *)
Lemma main_loop_reachable draws fuel window keys :
  forall self pos frames status pos',
    reachable draws window self ->
    main_loop draws fuel window keys self pos = Ok ((frames, status), pos') ->
    Forall (fun frame => reachable draws window (fst frame)) frames /\
    match status with
    | Running self' => reachable draws window self'
    | GameOver _ => True
    end.
Proof.
  induction keys as [|key keys IH]; intros self pos frames status pos'
    Hreach Hloop.
  - cbn in Hloop. unfold ret in Hloop. injection Hloop as <- <- <-.
    split; [constructor | exact Hreach].
  - cbn [main_loop] in Hloop.
    apply bind_Ok_inv in Hloop as (out & p1 & Htick & Hloop).
    destruct out as [self' timeout | self'].
    + apply bind_Ok_inv in Hloop as ([frames' status'] & p2 & Hrest & Hloop).
      unfold ret in Hloop. cbn [fst snd] in Hloop.
      injection Hloop as <- <- <-.
      assert (Hreach' : reachable draws window self')
        by (eapply reachable_tick; eassumption).
      destruct (IH _ _ _ _ _ Hreach' Hrest) as [Hframes Hstatus].
      split; [constructor; [exact Hreach' | exact Hframes] | exact Hstatus].
    + unfold ret in Hloop. injection Hloop as <- <- <-.
      split; [constructor | exact I].
Qed.

(** C1, on the code. The look-ahead of [can_go_further] only covers the cell
    straight ahead, so a turn into the body goes unnoticed. On the 21 x 21
    terminal with the draws and keys of [overlap_draws] and [overlap_keys]
    the game starts, runs eight ticks without ending, and the last frame it
    draws has the head on a body segment: the state is reachable, still
    running, and its segments are not pairwise distinct, although all of
    them are inside the arena. *)
Theorem self_overlap_is_rendered :
  from_curses_window overlap_draws 0%nat window_21 false 0%nat
    = Ok (overlap_start, 4%nat) /\
  (exists frames,
     main_loop overlap_draws 0%nat window_21 overlap_keys overlap_start 4%nat
       = Ok ((frames, Running overlap_game), 20%nat) /\
     In overlap_game (map fst frames)) /\
  reachable overlap_draws window_21 overlap_game /\
  hd_error (self_snake overlap_game) = Some (mkCoord 14 10) /\
  In (mkCoord 14 10) (tl (self_snake overlap_game)) /\
  ~ NoDup (self_snake overlap_game) /\
  Forall (inside_arena window_21) (self_snake overlap_game).
Proof.
  assert (Hstart : from_curses_window overlap_draws 0%nat window_21 false
                     0%nat = Ok (overlap_start, 4%nat))
    by (vm_compute; reflexivity).
  assert (Hloop : exists frames,
            main_loop overlap_draws 0%nat window_21 overlap_keys
              overlap_start 4%nat
              = Ok ((frames, Running overlap_game), 20%nat) /\
            In overlap_game (map fst frames)).
  { eexists. split; [cbv; reflexivity|].
    cbn [map fst]. do 7 right. left. reflexivity. }
  assert (Hreach : reachable overlap_draws window_21 overlap_game).
  { destruct Hloop as [frames [Hloop _]].
    assert (Hreach0 : reachable overlap_draws window_21 overlap_start)
      by (eapply reachable_start; exact Hstart).
    exact (proj2 (main_loop_reachable _ _ _ _ _ _ _ _ _ Hreach0 Hloop)). }
  split; [exact Hstart|]. split; [exact Hloop|]. split; [exact Hreach|].
  split; [reflexivity|].
  split; [cbn; auto 10|].
  split.
  - intros Hnodup. inversion Hnodup as [|head rest Hnotin _].
    apply Hnotin. cbn. auto 10.
  - apply (reachable_inside_arena _ _ _ Hreach).
Qed.

(** * Further properties of the engine *)

(** ** Directions and coordinates *)

(** X1. Two directions are opposite exactly when their unit vectors cancel;
    [is_opposite] is symmetric and no direction is its own opposite. *)
Theorem is_opposite_cancels (a b : Direction) :
  (is_opposite a b = true <->
   Coord_add (from_direction a) (from_direction b) = mkCoord 0 0) /\
  is_opposite a b = is_opposite b a /\
  is_opposite a a = false.
Proof.
  destruct a, b; cbn; repeat split; intros; try reflexivity;
    try discriminate.
Qed.

(** X2. The vector of a direction is one grid step long, and different
    directions have different vectors. *)
Theorem from_direction_unit (d : Direction) :
  manhattan (from_direction d) = 1 /\
  forall e, from_direction d = from_direction e -> d = e.
Proof.
  split; [destruct d; reflexivity|].
  intros e; destruct d, e; cbn; intros H; try reflexivity; discriminate.
Qed.

(** X3. Subtraction undoes addition and addition undoes subtraction; adding
    commutes, and the zero vector changes nothing. *)
Theorem Coord_add_sub_round_trip (a b : Coord) :
  Coord_sub (Coord_add a b) b = a /\
  Coord_add (Coord_sub a b) b = a /\
  Coord_add a b = Coord_add b a /\
  Coord_add a (mkCoord 0 0) = a /\
  Coord_sub a a = mkCoord 0 0.
Proof.
  destruct a as [ay ax], b as [by_ bx]. unfold Coord_add, Coord_sub. cbn.
  repeat split; f_equal; lia.
Qed.

(** ** Input *)

(** X4. [get_direction] knows eight key codes, two per direction, and
    answers [None] for every other code, the no-key code [-1] included. *)
Theorem get_direction_keys (key : Z) :
  (get_direction key = Some UP <-> key = curses_KEY_UP \/ key = KEY_K) /\
  (get_direction key = Some DOWN <-> key = curses_KEY_DOWN \/ key = KEY_J) /\
  (get_direction key = Some RIGHT <->
   key = curses_KEY_RIGHT \/ key = KEY_L) /\
  (get_direction key = Some LEFT <-> key = curses_KEY_LEFT \/ key = KEY_H) /\
  (get_direction key = None <->
   ~ In key [curses_KEY_UP; KEY_K; curses_KEY_DOWN; KEY_J;
             curses_KEY_RIGHT; KEY_L; curses_KEY_LEFT; KEY_H]) /\
  get_direction (-1) = None.
Proof.
  unfold get_direction, keys2direction, curses_KEY_UP, curses_KEY_DOWN,
    curses_KEY_LEFT, curses_KEY_RIGHT, KEY_H, KEY_J, KEY_K, KEY_L.
  cbn [find fst snd existsb In].
  repeat match goal with
  | |- context [key =? ?k] =>
      destruct (Z.eqb_spec key k);
      [subst; cbn; intuition (try discriminate; try lia)|]
  end.
  cbn. intuition (try discriminate; try lia).
Qed.

(** ** Sampling and food *)

(** X5. [random_inside_window] with any border raises [ValueError] exactly
    when the band [border .. max - border] is empty on an axis; otherwise it
    returns a cell of that band and has drawn twice. *)
Theorem random_inside_window_spec draws window border pos :
  (random_inside_window draws window border pos = Raise ValueError <->
   max_y window - border < border \/ max_x window - border < border) /\
  (border <= max_y window - border -> border <= max_x window - border ->
   exists c,
     random_inside_window draws window border pos = Ok (c, S (S pos)) /\
     border <= y c <= max_y window - border /\
     border <= x c <= max_x window - border).
Proof.
  assert (Hok : border <= max_y window - border ->
                border <= max_x window - border ->
                exists c,
                  random_inside_window draws window border pos
                    = Ok (c, S (S pos)) /\
                  border <= y c <= max_y window - border /\
                  border <= x c <= max_x window - border).
  { intros Hy Hx.
    assert (E : exists c, random_inside_window draws window border pos
                          = Ok (c, S (S pos))).
    { unfold random_inside_window. rewrite get_window_max_yx_eq.
      unfold bind, ret, randint.
      destruct (Z.ltb_spec (max_y window - border) border); [lia|].
      destruct (Z.ltb_spec (max_x window - border) border); [lia|].
      eexists. reflexivity. }
    destruct E as [c E]. exists c. split; [exact E|].
    now apply random_inside_window_range in E. }
  split; [|exact Hok]. split.
  - intros Hraise.
    destruct (Z.lt_ge_cases (max_y window - border) border) as [?|Hy];
      [auto|].
    destruct (Z.lt_ge_cases (max_x window - border) border) as [?|Hx];
      [auto|].
    destruct (Hok Hy Hx) as [c [E _]]. congruence.
  - intros Hempty. unfold random_inside_window.
    rewrite get_window_max_yx_eq. unfold bind, ret, randint.
    destruct (Z.ltb_spec (max_y window - border) border); [reflexivity|].
    destruct (Z.ltb_spec (max_x window - border) border);
      [reflexivity | lia].
Qed.

Lemma random_inside_window_spec_witness :
  (0 <= max_y window_10 - 0 /\ 0 <= max_x window_10 - 0) /\
  exists c,
    random_inside_window (draws_of [13; 27]) window_10 0 0%nat
      = Ok (c, 2%nat) /\
    0 <= y c <= max_y window_10 - 0 /\ 0 <= x c <= max_x window_10 - 0.
Proof.
  assert (Hy : 0 <= max_y window_10 - 0) by (cbn; lia).
  assert (Hx : 0 <= max_x window_10 - 0) by (cbn; lia).
  split; [split; assumption|].
  exact (proj2 (random_inside_window_spec (draws_of [13; 27]) window_10 0
                  0%nat) Hy Hx).
Defined.

(** How far the spawner moves the cursor: two draws per sample. *)
Lemma random_outside_snake_cursor draws window snake :
  forall fuel pos c pos',
    random_outside_snake draws fuel window snake pos = Ok (c, pos') ->
    exists k, (k <= fuel)%nat /\ pos' = (pos + 2 * S k)%nat.
Proof.
  induction fuel as [|fuel IH]; intros pos c pos';
    rewrite random_outside_snake_step;
    destruct (random_inside_window draws window 5 pos)
      as [[c0 p0]| |] eqn:Es; try discriminate;
    assert (Hp0 : p0 = S (S pos))
      by (destruct (Z.lt_ge_cases (max_y window) 10);
          [rewrite random_inside_window_empty in Es by auto; discriminate|];
          destruct (Z.lt_ge_cases (max_x window) 10);
          [rewrite random_inside_window_empty in Es by auto; discriminate|];
          rewrite random_inside_window_sample in Es by assumption;
          congruence);
    destruct (Coord_in c0 snake); try discriminate.
  - intros E. injection E as _ <-. exists 0%nat. split; lia.
  - intros E. apply IH in E as [k [Hk ->]]. exists (S k). split; lia.
  - intros E. injection E as _ <-. exists 0%nat. split; lia.
Qed.

Lemma choice_In draws {A} (seq : list A) (d : A) pos a pos' :
  choice draws seq d pos = Ok (a, pos') -> In a seq /\ pos' = S pos.
Proof.
  unfold choice. destruct seq as [|a0 seq]; [discriminate|].
  remember (a0 :: seq) as l eqn:El.
  assert (Hlen : (0 < length l)%nat) by (subst l; cbn; lia).
  clear El. intros E. injection E as <- <-. split; [|reflexivity].
  apply nth_In.
  pose proof (Z.mod_pos_bound (draws pos) (Z.of_nat (length l))) as Hb.
  lia.
Qed.

(** X6. A food that [create_random_food] returns has one of the seven
    glyphs and one of the colours red, yellow, green, white; its coordinate
    is in the band and on no segment of the snake given; the generator has
    been read an even number of times, four at least. *)
Theorem create_random_food_spec draws fuel window snake pos food pos' :
  create_random_food draws fuel window snake pos = Ok (food, pos') ->
  In (image food) food_images /\
  In (color food) [RED; YELLOW; GREEN; WHITE] /\
  ~ In (coord food) snake /\
  inside_band window (coord food) /\
  exists k, (k <= fuel)%nat /\ pos' = (pos + 4 + 2 * k)%nat.
Proof.
  intros H.
  pose proof (create_random_food_post _ _ _ _ _ _ _ H) as [Hoff Hband].
  unfold create_random_food in H.
  apply bind_Ok_inv in H as (i & p1 & Hi & H).
  apply bind_Ok_inv in H as (c & p2 & Hc & H).
  apply bind_Ok_inv in H as (xy & p3 & Hxy & H).
  unfold ret in H. injection H as <- <-. cbn [image color].
  apply choice_In in Hi as [Hi ->]. apply choice_In in Hc as [Hc ->].
  apply random_outside_snake_cursor in Hxy as [k [Hk ->]].
  split; [exact Hi|]. split; [exact Hc|].
  split; [now apply Coord_in_false_iff|]. split; [exact Hband|].
  exists k. split; lia.
Qed.

Lemma create_random_food_spec_witness :
  create_random_food (draws_of [8; 6; 5; 5; 6; 5]) 1%nat window_21
    [mkCoord 10 10] 0%nat
    = Ok (mkFood 36 (mkCoord 11 10) GREEN, 6%nat) /\
  In 36 food_images /\
  In GREEN [RED; YELLOW; GREEN; WHITE] /\
  ~ In (mkCoord 11 10) [mkCoord 10 10] /\
  inside_band window_21 (mkCoord 11 10) /\
  exists k, (k <= 1)%nat /\ 6%nat = (0 + 4 + 2 * k)%nat.
Proof.
  assert (E : create_random_food (draws_of [8; 6; 5; 5; 6; 5]) 1%nat
                window_21 [mkCoord 10 10] 0%nat
              = Ok (mkFood 36 (mkCoord 11 10) GREEN, 6%nat)) by reflexivity.
  split; [exact E|].
  exact (create_random_food_spec _ _ _ _ _ _ _ E).
Defined.

(** ** Starting a game *)

(** X7. On a terminal with fewer than 11 rows or fewer than 11 columns the
    game cannot be created: [from_curses_window] raises [ValueError]. *)
Theorem from_curses_window_small_terminal draws fuel window debug pos :
  fst (getmaxyx window) < 11 \/ snd (getmaxyx window) < 11 ->
  from_curses_window draws fuel window debug pos = Raise ValueError.
Proof.
  intros Hsmall. unfold from_curses_window, bind.
  rewrite create_random_food_empty; [reflexivity|].
  unfold max_y, max_x, get_window_max_yx.
  destruct (getmaxyx window) as [rows cols]. cbn in *. lia.
Qed.

Lemma from_curses_window_small_terminal_witness :
  (fst (getmaxyx window_10) < 11 \/ snd (getmaxyx window_10) < 11) /\
  from_curses_window (draws_of []) 3%nat window_10 false 0%nat
    = Raise ValueError.
Proof.
  assert (H : fst (getmaxyx window_10) < 11 \/ snd (getmaxyx window_10) < 11)
    by (left; cbn; lia).
  split; [exact H|].
  exact (from_curses_window_small_terminal (draws_of []) 3%nat window_10
           false 0%nat H).
Defined.

(** X8. A game that [from_curses_window] returns has a one-segment snake at
    the centre of the window, heads down, keeps the debug flag it was given,
    and has its food in the band, away from the snake; the centre is inside
    the arena. *)
Theorem from_curses_window_spec draws fuel window debug pos self pos' :
  from_curses_window draws fuel window debug pos = Ok (self, pos') ->
  self_snake self = [get_window_center window] /\
  self_direction self = DOWN /\
  self_debug self = debug /\
  inside_band window (coord (self_food self)) /\
  coord (self_food self) <> get_window_center window /\
  inside_arena window (get_window_center window) /\
  2 * y (get_window_center window) <= max_y window
    <= 2 * y (get_window_center window) + 1 /\
  2 * x (get_window_center window) <= max_x window
    <= 2 * x (get_window_center window) + 1.
Proof.
  intros H.
  pose proof (from_curses_window_inv _ _ _ _ _ _ _ H) as (Hy & Hx & _ & _).
  unfold from_curses_window in H.
  apply bind_Ok_inv in H as (food & p & Hfood & H).
  unfold ret in H. injection H as <- <-.
  cbn [self_snake self_direction self_debug self_food].
  apply create_random_food_post in Hfood as [Hoff Hband].
  split; [reflexivity|]. split; [reflexivity|]. split; [reflexivity|].
  split; [exact Hband|].
  split.
  { apply Coord_in_false_iff in Hoff. intros E. apply Hoff. left.
    symmetry. exact E. }
  unfold get_window_center, inside_arena, BORDER.
  rewrite get_window_max_yx_eq. cbn [y x].
  pose proof (Z.div_mod (max_y window) 2 ltac:(lia)).
  pose proof (Z.mod_pos_bound (max_y window) 2 ltac:(lia)).
  pose proof (Z.div_mod (max_x window) 2 ltac:(lia)).
  pose proof (Z.mod_pos_bound (max_x window) 2 ltac:(lia)).
  lia.
Qed.

Lemma from_curses_window_spec_witness :
  from_curses_window overlap_draws 0%nat window_21 false 0%nat
    = Ok (overlap_start, 4%nat) /\
  self_snake overlap_start = [get_window_center window_21] /\
  self_direction overlap_start = DOWN /\
  self_debug overlap_start = false /\
  inside_band window_21 (coord (self_food overlap_start)) /\
  coord (self_food overlap_start) <> get_window_center window_21 /\
  inside_arena window_21 (get_window_center window_21) /\
  2 * y (get_window_center window_21) <= max_y window_21
    <= 2 * y (get_window_center window_21) + 1 /\
  2 * x (get_window_center window_21) <= max_x window_21
    <= 2 * x (get_window_center window_21) + 1.
Proof.
  assert (E : from_curses_window overlap_draws 0%nat window_21 false 0%nat
              = Ok (overlap_start, 4%nat)) by reflexivity.
  split; [exact E|].
  exact (from_curses_window_spec _ _ _ _ _ _ _ E).
Defined.

(** ** Pacing, continued *)



(** ** One tick *)

Lemma can_go_further_false window head body direction pos pos' :
  can_go_further window (head :: body) direction pos = Ok (false, pos') ->
  ~ inside_arena window (Coord_add head (from_direction direction)) \/
  In (Coord_add head (from_direction direction)) (head :: body).
Proof.
  rewrite can_go_further_value.
  destruct (Coord_in (Coord_add head (from_direction direction))
              (head :: body)) eqn:Ein.
  - intros _. right. now apply Coord_in_iff.
  - rewrite orb_false_r, !Z.gtb_ltb. intros H. injection H as H _.
    apply negb_false_iff in H.
    rewrite !orb_true_iff, !Z.ltb_lt in H.
    left. unfold inside_arena. cbn [y x Coord_add] in *. lia.
Qed.

Lemma length_removelast_cons {A} (a : A) (l : list A) :
  length (removelast (a :: l)) = length l.
Proof.
  revert a. induction l as [|b l IH]; intros a; [reflexivity|].
  change (removelast (a :: b :: l)) with (a :: removelast (b :: l)).
  cbn [length]. f_equal. apply IH.
Qed.

Lemma In_removelast {A} (a : A) (l : list A) :
  In a (removelast l) -> In a l.
Proof.
  induction l as [|b l IH]; [auto|].
  destruct l as [|c l]; [intros []|].
  change (removelast (b :: c :: l)) with (b :: removelast (c :: l)).
  intros [->|H]; [left; reflexivity | right; apply IH, H].
Qed.

(** X11. What a returning tick does to the game. The direction is the polled
    one, the debug flag is kept, the new head is the old head moved one
    step. With the old head off the food, the food stays, nothing is drawn
    from the generator, the tail is dropped and the length is unchanged.
    With the old head on the food, the whole old snake is kept behind the
    new head, so the length goes up by one, and the new food is in the band,
    off every segment of the old snake, at a cost of four draws or more. *)
Theorem tick_effect draws fuel window key self pos out pos' :
  tick draws fuel window key self pos = Ok (out, pos') ->
  exists head body,
    self_snake self = head :: body /\
    let self' := Tick_game out in
    let new_head := Coord_add head (from_direction (self_direction self')) in
    self_direction self' = poll_direction key self /\
    self_debug self' = self_debug self /\
    (head <> coord (self_food self) ->
     self_food self' = self_food self /\ pos' = pos /\
     self_snake self' = new_head :: removelast (head :: body) /\
     length (self_snake self') = length (self_snake self)) /\
    (head = coord (self_food self) ->
     self_snake self' = new_head :: head :: body /\
     length (self_snake self') = S (length (self_snake self)) /\
     ~ In (coord (self_food self')) (self_snake self) /\
     inside_band window (coord (self_food self')) /\
     (pos + 4 <= pos')%nat).
Proof.
  intros H.
  apply tick_inv in H as (head & body & food' & Hsnake & Hfood & Hgame & _).
  exists head, body. split; [exact Hsnake|]. cbn zeta.
  rewrite Hgame. cbn [self_direction self_debug self_food self_snake].
  split; [reflexivity|]. split; [reflexivity|]. split.
  - intros Hoff. apply Coord_eq_false_iff in Hoff.
    rewrite Hoff in *. unfold ret in Hfood. injection Hfood as <- <-.
    split; [reflexivity|]. split; [reflexivity|]. split; [reflexivity|].
    rewrite Hsnake. cbn [length]. now rewrite length_removelast_cons.
  - intros Hon. apply Coord_eq_iff in Hon. rewrite Hon in *.
    split; [reflexivity|]. split; [now rewrite Hsnake|].
    apply create_random_food_spec in Hfood
      as (_ & _ & Hoff & Hband & k & _ & ->).
    rewrite Hsnake. split; [exact Hoff|]. split; [exact Hband | lia].
Qed.

Lemma tick_effect_witness :
  tick (draws_of [8; 6; 5; 5; 6; 5]) 1%nat window_21 KEY_L
    (mkGame [mkCoord 10 10; mkCoord 9 10] (mkFood 37 (mkCoord 10 10) RED)
       DOWN true) 0%nat
  = Ok (Continue
          (mkGame [mkCoord 10 11; mkCoord 10 10; mkCoord 9 10]
             (mkFood 36 (mkCoord 11 10) GREEN) RIGHT true)
          ((TIC * horizontal_correction RIGHT
            + 1 / inject_Z (Z.of_nat 3 * 2))%Q), 6%nat) /\
  exists head body,
    [mkCoord 10 10; mkCoord 9 10] = head :: body /\
    RIGHT = poll_direction KEY_L
              (mkGame [mkCoord 10 10; mkCoord 9 10]
                 (mkFood 37 (mkCoord 10 10) RED) DOWN true) /\
    (head = mkCoord 10 10 ->
     [mkCoord 10 11; mkCoord 10 10; mkCoord 9 10]
       = Coord_add head (from_direction RIGHT) :: head :: body /\
     ~ In (mkCoord 11 10) [mkCoord 10 10; mkCoord 9 10] /\
     inside_band window_21 (mkCoord 11 10) /\ (0 + 4 <= 6)%nat).
Proof.
  assert (E : tick (draws_of [8; 6; 5; 5; 6; 5]) 1%nat window_21 KEY_L
                (mkGame [mkCoord 10 10; mkCoord 9 10]
                   (mkFood 37 (mkCoord 10 10) RED) DOWN true) 0%nat
              = Ok (Continue
                      (mkGame [mkCoord 10 11; mkCoord 10 10; mkCoord 9 10]
                         (mkFood 36 (mkCoord 11 10) GREEN) RIGHT true)
                      ((TIC * horizontal_correction RIGHT
                        + 1 / inject_Z (Z.of_nat 3 * 2))%Q), 6%nat))
    by reflexivity.
  split; [exact E|].
  destruct (tick_effect _ _ _ _ _ _ _ _ E)
    as (head & body & Hsnake & Hdir & _ & _ & Hon).
  exists head, body. split; [exact Hsnake|]. split; [exact Hdir|].
  intros Hhead. destruct (Hon Hhead) as (Hs & _ & Hoff & Hband & Hpos).
  split; [exact Hs|]. split; [exact Hoff|]. split; assumption.
Defined.

(** X12. A returning tick leaves the loop exactly when, after the move, the
    cell ahead of the new head in the direction just used is outside the
    arena or on a segment of the moved snake; otherwise the frame is drawn
    and the timeout is the one [calculate_frame_timeout] gives for the moved
    snake. *)
Theorem tick_game_over_iff draws fuel window key self pos out pos' :
  tick draws fuel window key self pos = Ok (out, pos') ->
  exists head body,
    self_snake (Tick_game out) = head :: body /\
    let ahead :=
      Coord_add head (from_direction (self_direction (Tick_game out))) in
    (out = Break (Tick_game out) <->
     ~ inside_arena window ahead \/ In ahead (head :: body)) /\
    (forall self' timeout,
       out = Continue self' timeout ->
       calculate_frame_timeout (head :: body)
         (self_direction (Tick_game out)) pos' = Ok (timeout, pos')).
Proof.
  intros H.
  pose proof (tick_inv _ _ _ _ _ _ _ _ H)
    as (head & body & food' & Hsnake & _ & Hgame & Hfurther).
  cbn zeta in Hgame, Hfurther.
  set (d := poll_direction key self) in *.
  set (new_head := Coord_add head (from_direction d)) in *.
  assert (Hmoved : exists rest,
    (if Coord_eq head (coord (self_food self))
     then new_head :: head :: body
     else new_head :: removelast (head :: body)) = new_head :: rest)
    by (destruct (Coord_eq head (coord (self_food self))); eauto).
  destruct Hmoved as [rest Hrest]. rewrite Hrest in *.
  exists new_head, rest. rewrite Hgame.
  cbn [self_snake self_direction]. split; [reflexivity|]. split.
  - destruct out as [self' timeout | self']; cbn [Tick_game] in Hgame.
    + apply can_go_further_true in Hfurther as [Hin Hfree].
      split; [discriminate | tauto].
    + split; [intros _; eapply can_go_further_false; exact Hfurther|].
      intros _. now rewrite Hgame.
  - intros self' timeout ->. cbn [Tick_game] in Hgame. subst self'.
    destruct self as [snake food direction debug].
    cbn [self_snake] in Hsnake. subst snake.
    rewrite tick_value in H.
    cbn [self_snake self_food self_direction self_debug] in *.
    fold d in H. fold new_head in H. rewrite Hrest in H.
    apply bind_Ok_inv in H as (food0 & p1 & _ & H).
    apply bind_Ok_inv in H as (further & p2 & Hf & H).
    pose proof (can_go_further_pos _ _ _ _ _ _ Hf) as ->.
    destruct further; cbn [negb] in H; [|discriminate].
    apply bind_Ok_inv in H as (t & p3 & Ht & H).
    pose proof (calculate_frame_timeout_pos _ _ _ _ _ Ht) as ->.
    unfold ret in H. injection H as _ <- <-. exact Ht.
Qed.

Lemma tick_game_over_iff_witness :
  tick (draws_of []) 0%nat window_21 (-1)
    (mkGame [mkCoord 1 3] (mkFood 37 (mkCoord 7 7) RED) UP false) 0%nat
  = Ok (Break (mkGame [mkCoord 0 3] (mkFood 37 (mkCoord 7 7) RED) UP false),
        0%nat) /\
  exists head body,
    [mkCoord 0 3] = head :: body /\
    (~ inside_arena window_21 (Coord_add head (from_direction UP)) \/
     In (Coord_add head (from_direction UP)) (head :: body)).
Proof.
  assert (E : tick (draws_of []) 0%nat window_21 (-1)
                (mkGame [mkCoord 1 3] (mkFood 37 (mkCoord 7 7) RED) UP false)
                0%nat
              = Ok (Break (mkGame [mkCoord 0 3]
                             (mkFood 37 (mkCoord 7 7) RED) UP false),
                    0%nat)) by reflexivity.
  split; [exact E|].
  destruct (tick_game_over_iff _ _ _ _ _ _ _ _ E)
    as (head & body & Hsnake & Hiff & _).
  exists head, body. split; [exact Hsnake|].
  apply Hiff. reflexivity.
Defined.

(** X13. [snake_move] raises [IndexError] exactly on the empty snake. On any
    other snake it returns, reads nothing from the generator, and never
    leaves the snake as it was: the head changes, and every segment of the
    result is the new head or a segment of the old snake. *)
Theorem snake_move_never_stays snake direction can_grow pos :
  (snake_move snake direction can_grow pos = Raise IndexError <->
   snake = []) /\
  (forall head body, snake = head :: body ->
   exists moved,
     snake_move snake direction can_grow pos = Ok (moved, pos) /\
     moved <> snake /\
     hd_error moved = Some (Coord_add head (from_direction direction)) /\
     hd_error moved <> hd_error snake /\
     (forall c, In c moved ->
        c = Coord_add head (from_direction direction) \/ In c snake)).
Proof.
  split.
  - split.
    + destruct snake as [|head body]; [reflexivity|].
      rewrite snake_move_value. discriminate.
    + intros ->. reflexivity.
  - intros head body ->. rewrite snake_move_value. eexists.
    split; [reflexivity|].
    pose proof (from_direction_moves head direction) as Hmoves.
    apply Coord_eq_false_iff in Hmoves.
    assert (Hhd : forall rest,
              hd_error (Coord_add head (from_direction direction) :: rest)
              <> hd_error (head :: body))
      by (cbn; congruence).
    destruct can_grow.
    + split; [intros E; apply (Hhd (head :: body)); now rewrite E|].
      split; [reflexivity|]. split; [apply Hhd|].
      intros c [<-|Hin]; auto.
    + split; [intros E; apply (Hhd (removelast (head :: body)));
              now rewrite E|].
      split; [reflexivity|]. split; [apply Hhd|].
      intros c [<-|Hin]; [auto|]. right. now apply In_removelast.
Qed.

(** ** Invariants of the running game *)

Lemma poll_direction_not_opposite key self :
  is_opposite (poll_direction key self) (self_direction self) = false.
Proof.
  unfold poll_direction. destruct (get_direction key) as [new_direction|].
  - destruct (is_opposite new_direction (self_direction self)) eqn:E;
      cbn [negb]; [|exact E].
    destruct (self_direction self); reflexivity.
  - destruct (self_direction self); reflexivity.
Qed.

Lemma not_opposite_no_return neck previous direction :
  is_opposite direction previous = false ->
  Coord_add (Coord_add neck (from_direction previous))
    (from_direction direction) <> neck.
Proof.
  destruct neck as [ny nx].
  destruct previous, direction; cbn; intros H E; try discriminate;
    injection E; lia.
Qed.

Lemma reachable_big draws window self :
  reachable draws window self -> 10 <= max_y window /\ 10 <= max_x window.
Proof.
  induction 1 as [fuel debug pos self pos' Hstart|]; [|assumption].
  apply from_curses_window_inv in Hstart. tauto.
Qed.

Lemma steps_removelast snake : steps snake -> steps (removelast snake).
Proof.
  induction snake as [|a snake IH]; [auto|].
  destruct snake as [|b snake]; [cbn; auto|].
  intros [Hd Hs].
  change (removelast (a :: b :: snake)) with (a :: removelast (b :: snake)).
  destruct snake as [|c snake]; [exact I|].
  change (removelast (b :: c :: snake))
    with (b :: removelast (c :: snake)) in *.
  split; [exact Hd | exact (IH Hs)].
Qed.

Lemma no_backtrack_removelast snake :
  no_backtrack snake -> no_backtrack (removelast snake).
Proof.
  induction snake as [|a snake IH]; [auto|].
  destruct snake as [|b snake]; [cbn; auto|].
  destruct snake as [|c snake]; [cbn; auto|].
  intros [Hac Hrest].
  change (removelast (a :: b :: c :: snake))
    with (a :: b :: removelast (c :: snake)).
  destruct snake as [|e snake]; [exact I|].
  change (removelast (c :: e :: snake))
    with (c :: removelast (e :: snake)) in *.
  split; [exact Hac|].
  exact (IH Hrest).
Qed.

(** While the loop keeps running the snake is a path of unit steps that
    never doubles back, and its head is where the committed direction took
    it. *)
Lemma reachable_path draws window self :
  reachable draws window self ->
  steps (self_snake self) /\ no_backtrack (self_snake self) /\
  head_follows_direction self.
Proof.
  induction 1 as [fuel debug pos self pos' Hstart
                 |fuel key pos self self' timeout pos' Hreach IH Htick].
  - apply from_curses_window_inv in Hstart as (_ & _ & Hsnake & _).
    unfold head_follows_direction. rewrite Hsnake. cbn. auto.
  - destruct IH as (Hsteps & Hback & Hfollows).
    apply tick_inv in Htick
      as (head & body & food' & Hsnake & _ & Hgame & _).
    cbn [Tick_game] in Hgame. subst self'.
    unfold head_follows_direction in *.
    cbn [self_snake self_direction].
    pose proof (poll_direction_not_opposite key self) as Hturn.
    set (d := poll_direction key self) in *.
    set (new_head := Coord_add head (from_direction d)) in *.
    rewrite Hsnake in Hsteps, Hback, Hfollows.
    assert (Hneck : forall neck rest, body = neck :: rest ->
                      new_head <> neck).
    { intros neck rest ->. cbv beta iota in Hfollows. unfold new_head.
      rewrite Hfollows. now apply not_opposite_no_return. }
    destruct (Coord_eq head (coord (self_food self))).
    + split; [split; [exists d; reflexivity | exact Hsteps]|].
      split; [|reflexivity].
      destruct body as [|neck rest]; [exact I|].
      split; [exact (Hneck neck rest eq_refl) | exact Hback].
    + destruct body as [|neck rest]; [cbn; auto|].
      change (removelast (head :: neck :: rest))
        with (head :: removelast (neck :: rest)).
      pose proof (steps_removelast _ Hsteps) as Hsteps'.
      pose proof (no_backtrack_removelast _ Hback) as Hback'.
      change (removelast (head :: neck :: rest))
        with (head :: removelast (neck :: rest)) in Hsteps', Hback'.
      split; [split; [exists d; reflexivity | exact Hsteps']|].
      split; [|reflexivity].
      destruct rest as [|third rest]; [exact I|].
      change (removelast (neck :: third :: rest))
        with (neck :: removelast (third :: rest)) in *.
      split; [exact (Hneck neck _ eq_refl) | exact Hback'].
Qed.

Lemma create_random_food_no_raise draws fuel window snake pos e :
  10 <= max_y window -> 10 <= max_x window ->
  create_random_food draws fuel window snake pos <> Raise e.
Proof.
  intros Hy Hx. unfold create_random_food, bind, choice.
  cbn [food_images food_colors].
  pose proof (random_outside_snake_no_raise draws window snake Hy Hx fuel
                (S (S pos)) e) as Hno.
  destruct (random_outside_snake draws fuel window snake (S (S pos)))
    as [[c p]| |]; [discriminate | | discriminate].
  intros E. apply Hno. congruence.
Qed.

Lemma tick_no_raise draws window self :
  reachable draws window self ->
  forall fuel key pos e, tick draws fuel window key self pos <> Raise e.
Proof.
  intros Hreach fuel key pos e.
  pose proof (reachable_big _ _ _ Hreach) as [Hy Hx].
  pose proof (reachable_inside_arena _ _ _ Hreach)
    as [_ (head & body & Hsnake & _)].
  destruct self as [snake food direction debug].
  cbn [self_snake] in Hsnake. subst snake.
  destruct (Coord_eq head (coord food)) eqn:Eat.
  - rewrite tick_value, Eat. unfold bind at 1.
    pose proof (create_random_food_no_raise draws fuel window (head :: body)
                  pos e Hy Hx) as Hfood.
    destruct (create_random_food draws fuel window (head :: body) pos)
      as [[food' p]| |]; try congruence.
    unfold bind at 1. rewrite can_go_further_value.
    match goal with
    | |- context [negb (negb ?c)] => destruct c
    end; cbn [negb]; [discriminate|].
    unfold bind. rewrite calculate_frame_timeout_value by discriminate.
    discriminate.
  - destruct (tick_no_eat draws fuel window key head body food direction
                debug pos Eat) as [out [E _]].
    rewrite E. discriminate.
Qed.

(** X14. From a state the running loop can be in, nothing raises: no tick
    and no run of [main_loop] ends in an exception, a tick whose head is off
    the food always returns, and a tick that has not returned is one that
    eats and is still waiting for the spawner. *)
Theorem running_game_never_raises draws window self :
  reachable draws window self ->
  (forall fuel key pos e, tick draws fuel window key self pos <> Raise e) /\
  (forall fuel keys pos e,
     main_loop draws fuel window keys self pos <> Raise e) /\
  (forall fuel key pos,
     hd_error (self_snake self) <> Some (coord (self_food self)) ->
     exists out, tick draws fuel window key self pos = Ok (out, pos)) /\
  (forall fuel key pos,
     tick draws fuel window key self pos = Diverge ->
     hd_error (self_snake self) = Some (coord (self_food self))).
Proof.
  intros Hreach.
  assert (Hloop : forall fuel keys self0 pos e,
            reachable draws window self0 ->
            main_loop draws fuel window keys self0 pos <> Raise e).
  { intros fuel keys. induction keys as [|key keys IH];
      intros self0 pos e Hr; [discriminate|].
    cbn [main_loop]. unfold bind at 1.
    pose proof (tick_no_raise _ _ _ Hr fuel key pos e) as Htick.
    destruct (tick draws fuel window key self0 pos)
      as [[[self' timeout|self'] p]| |] eqn:E; try congruence;
      [|discriminate].
    assert (Hr' : reachable draws window self')
      by (eapply reachable_tick; eassumption).
    unfold bind. specialize (IH self' p e Hr').
    destruct (main_loop draws fuel window keys self' p) as [[r p']| |];
      try congruence; discriminate. }
  pose proof (reachable_inside_arena _ _ _ Hreach)
    as [_ (head & body & Hsnake & _)].
  assert (Hoff : forall fuel key pos,
            hd_error (self_snake self) <> Some (coord (self_food self)) ->
            exists out, tick draws fuel window key self pos = Ok (out, pos)).
  { intros fuel key pos Hhd.
    destruct self as [snake food direction debug].
    cbn [self_snake self_food] in *. subst snake.
    assert (Eat : Coord_eq head (coord food) = false)
      by (apply Coord_eq_false_iff; cbn in Hhd; congruence).
    destruct (tick_no_eat draws fuel window key head body food direction
                debug pos Eat) as [out [E _]].
    eauto. }
  split; [now apply tick_no_raise|].
  split; [intros fuel keys pos e; now apply Hloop|].
  split; [exact Hoff|].
  intros fuel key pos Hdiv.
  rewrite Hsnake. cbn [hd_error].
  destruct (Coord_eq head (coord (self_food self))) eqn:Eat.
  - apply Coord_eq_iff in Eat. now rewrite Eat.
  - exfalso. apply Coord_eq_false_iff in Eat.
    destruct (Hoff fuel key pos) as [out E];
      [rewrite Hsnake; cbn; congruence | congruence].
Qed.

Lemma running_game_never_raises_witness :
  reachable overlap_draws window_21 overlap_start /\
  (forall fuel keys pos e,
     main_loop overlap_draws fuel window_21 keys overlap_start pos
     <> Raise e) /\
  (hd_error (self_snake overlap_start)
     <> Some (coord (self_food overlap_start)) /\
   exists out,
     tick overlap_draws 0%nat window_21 (-1) overlap_start 4%nat
       = Ok (out, 4%nat)).
Proof.
  assert (Hreach : reachable overlap_draws window_21 overlap_start)
    by (apply (reachable_start overlap_draws window_21 0%nat false 0%nat
                 overlap_start 4%nat); reflexivity).
  assert (Hhd : hd_error (self_snake overlap_start)
                <> Some (coord (self_food overlap_start)))
    by (cbn; discriminate).
  pose proof (running_game_never_raises overlap_draws window_21
                overlap_start Hreach) as (_ & Hloop & Hoff & _).
  split; [exact Hreach|]. split; [exact Hloop|].
  split; [exact Hhd | exact (Hoff 0%nat (-1) 4%nat Hhd)].
Defined.

(** X15. In a game started by [from_curses_window] and run by [main_loop],
    every frame drawn shows a non-empty snake whose segments are all inside
    the arena, with the cell ahead of the head inside the arena too: the
    head is never on the border row or column it is heading for. There are
    at most as many frames as ticks. *)
Theorem frames_inside_arena
  draws fuel0 fuel window debug keys pos start pos0 frames status pos1 :
  from_curses_window draws fuel0 window debug pos = Ok (start, pos0) ->
  main_loop draws fuel window keys start pos0
    = Ok ((frames, status), pos1) ->
  (length frames <= length keys)%nat /\
  forall self timeout, In (self, timeout) frames ->
    (forall c, In c (self_snake self) ->
       0 <= y c <= max_y window /\ 0 <= x c <= max_x window) /\
    exists head body,
      self_snake self = head :: body /\
      match self_direction self with
      | UP => 1 <= y head
      | DOWN => y head <= max_y window - 1
      | LEFT => 1 <= x head
      | RIGHT => x head <= max_x window - 1
      end.
Proof.
  intros Hstart Hloop. split.
  - clear Hstart. revert start pos0 frames status pos1 Hloop.
    induction keys as [|key keys IH]; intros start pos0 frames status pos1 H.
    + cbn in H. unfold ret in H. injection H as <- _ _. cbn. lia.
    + cbn [main_loop] in H.
      apply bind_Ok_inv in H as (out & p & _ & H).
      destruct out as [self' timeout|self'].
      * apply bind_Ok_inv in H as ([frames' status'] & p' & Hrest & H).
        unfold ret in H. cbn [fst snd] in H. injection H as <- _ _.
        apply IH in Hrest. cbn [length]. lia.
      * unfold ret in H. injection H as <- _ _. cbn. lia.
  - assert (Hreach0 : reachable draws window start)
      by (eapply reachable_start; exact Hstart).
    pose proof (main_loop_reachable _ _ _ _ _ _ _ _ _ Hreach0 Hloop)
      as [Hframes _].
    intros self timeout Hin.
    rewrite Forall_forall in Hframes.
    specialize (Hframes _ Hin). cbn [fst] in Hframes.
    apply reachable_inside_arena in Hframes
      as [Hall (head & body & Hsnake & _ & Hahead & _)].
    split.
    + intros c Hc. rewrite Forall_forall in Hall.
      specialize (Hall c Hc). unfold inside_arena, BORDER in Hall. lia.
    + exists head, body. split; [exact Hsnake|].
      unfold inside_arena, BORDER in Hahead. destruct head as [hy hx].
      destruct (self_direction self); cbn in Hahead; cbn [y x]; lia.
Qed.

Lemma frames_inside_arena_witness :
  from_curses_window overlap_draws 0%nat window_21 false 0%nat
    = Ok (overlap_start, 4%nat) /\
  exists frames,
    main_loop overlap_draws 0%nat window_21 overlap_keys overlap_start 4%nat
      = Ok ((frames, Running overlap_game), 20%nat) /\
    (length frames <= length overlap_keys)%nat.
Proof.
  assert (Hstart : from_curses_window overlap_draws 0%nat window_21 false
                     0%nat = Ok (overlap_start, 4%nat)) by reflexivity.
  split; [exact Hstart|].
  eexists. split; [cbv; reflexivity|].
  match goal with
  | |- (length ?f <= _)%nat =>
      assert (Hloop : main_loop overlap_draws 0%nat window_21 overlap_keys
                        overlap_start 4%nat
                      = Ok ((f, Running overlap_game), 20%nat))
        by (cbv; reflexivity);
      exact (proj1 (frames_inside_arena _ _ _ _ _ _ _ _ _ _ _ _
                      Hstart Hloop))
  end.
Defined.

Lemma overlap_start_reachable :
  reachable overlap_draws window_21 overlap_start.
Proof.
  apply (reachable_start overlap_draws window_21 0%nat false 0%nat
           overlap_start 4%nat). reflexivity.
Qed.

Lemma overlap_mid_reachable : reachable overlap_draws window_21 overlap_mid.
Proof.
  assert (Hloop : exists frames,
            main_loop overlap_draws 0%nat window_21 (firstn 4 overlap_keys)
              overlap_start 4%nat
              = Ok ((frames, Running overlap_mid), 16%nat))
    by (eexists; cbv; reflexivity).
  destruct Hloop as [frames Hloop].
  exact (proj2 (main_loop_reachable _ _ _ _ _ _ _ _ _
                  overlap_start_reachable Hloop)).
Qed.

Lemma overlap_game_reachable :
  reachable overlap_draws window_21 overlap_game.
Proof.
  assert (Hloop : exists frames,
            main_loop overlap_draws 0%nat window_21 overlap_keys
              overlap_start 4%nat
              = Ok ((frames, Running overlap_game), 20%nat))
    by (eexists; cbv; reflexivity).
  destruct Hloop as [frames Hloop].
  exact (proj2 (main_loop_reachable _ _ _ _ _ _ _ _ _
                  overlap_start_reachable Hloop)).
Qed.

(** X16. While the loop keeps running the food lies in the spawner's band
    and under no segment behind the head: it is either on a free cell or
    exactly under the head, about to be eaten. *)
Theorem running_food_off_body draws window self :
  reachable draws window self ->
  inside_band window (coord (self_food self)) /\
  ~ In (coord (self_food self)) (tl (self_snake self)).
Proof.
  induction 1 as [fuel debug pos self pos' Hstart
                 |fuel key pos self self' timeout pos' Hreach IH Htick].
  - pose proof (from_curses_window_inv _ _ _ _ _ _ _ Hstart)
      as (_ & _ & Hsnake & _).
    unfold from_curses_window in Hstart.
    apply bind_Ok_inv in Hstart as (food & p & Hfood & Hstart).
    unfold ret in Hstart. injection Hstart as <- <-.
    cbn [self_food self_snake tl].
    apply create_random_food_post in Hfood as [_ Hband].
    split; [exact Hband | intros []].
  - destruct IH as [Hband Hoff].
    apply tick_inv in Htick
      as (head & body & food' & Hsnake & Hfood & Hgame & _).
    cbn [Tick_game] in Hgame. subst self'.
    cbn [self_food self_snake]. rewrite Hsnake in Hoff. cbn [tl] in Hoff.
    destruct (Coord_eq head (coord (self_food self))) eqn:Eat.
    + apply create_random_food_post in Hfood as [Hfree Hband'].
      split; [exact Hband'|]. cbn [tl].
      now apply Coord_in_false_iff.
    + unfold ret in Hfood. injection Hfood as <- _.
      split; [exact Hband|]. cbn [tl]. intros Hin.
      apply In_removelast in Hin. destruct Hin as [E|Hin]; [|auto].
      apply Coord_eq_false_iff in Eat. congruence.
Qed.

Lemma running_food_off_body_witness :
  reachable overlap_draws window_21 overlap_mid /\
  inside_band window_21 (coord (self_food overlap_mid)) /\
  ~ In (coord (self_food overlap_mid)) (tl (self_snake overlap_mid)).
Proof.
  split; [exact overlap_mid_reachable|].
  exact (running_food_off_body overlap_draws window_21 overlap_mid
           overlap_mid_reachable).
Defined.

Lemma steps_nth_error snake :
  steps snake ->
  forall i a b,
    nth_error snake i = Some a -> nth_error snake (S i) = Some b ->
    exists d, a = Coord_add b (from_direction d).
Proof.
  induction snake as [|s snake IH]; intros Hsteps i a b Ha Hb;
    [destruct i; discriminate|].
  destruct snake as [|t snake]; [destruct i; discriminate|].
  destruct Hsteps as [Hd Hrest]. destruct i as [|i].
  - cbn in Ha, Hb. injection Ha as <-. injection Hb as <-. exact Hd.
  - exact (IH Hrest i a b Ha Hb).
Qed.

Lemma no_backtrack_nth_error snake :
  no_backtrack snake ->
  forall i a c,
    nth_error snake i = Some a -> nth_error snake (S (S i)) = Some c ->
    a <> c.
Proof.
  induction snake as [|s snake IH]; intros Hback i a c Ha Hc;
    [destruct i; discriminate|].
  destruct snake as [|t snake]; [destruct i as [|[|i]]; discriminate|].
  destruct snake as [|u snake]; [destruct i as [|[|i]]; discriminate|].
  destruct Hback as [Hsu Hrest]. destruct i as [|i].
  - cbn in Ha, Hc. injection Ha as <-. injection Hc as <-. exact Hsu.
  - exact (IH Hrest i a c Ha Hc).
Qed.

(** X17. While the loop keeps running the snake is a connected path: each
    segment is exactly one grid step from the segment behind it, no segment
    lies on the one two places behind it (the snake never doubles back onto
    its neck), and whatever key is polled next, the head will not move onto
    the segment right behind it. *)
Theorem running_snake_is_path draws window self :
  reachable draws window self ->
  (forall i a b,
     nth_error (self_snake self) i = Some a ->
     nth_error (self_snake self) (S i) = Some b ->
     manhattan (Coord_sub a b) = 1) /\
  (forall i a c,
     nth_error (self_snake self) i = Some a ->
     nth_error (self_snake self) (S (S i)) = Some c ->
     a <> c) /\
  (forall key head neck,
     nth_error (self_snake self) 0 = Some head ->
     nth_error (self_snake self) 1 = Some neck ->
     Coord_add head (from_direction (poll_direction key self)) <> neck).
Proof.
  intros Hreach.
  destruct (reachable_path _ _ _ Hreach) as (Hsteps & Hback & Hfollows).
  split; [|split].
  - intros i a b Ha Hb.
    destruct (steps_nth_error _ Hsteps i a b Ha Hb) as [d ->].
    destruct b as [by_ bx]. destruct d; unfold manhattan; cbn; lia.
  - now apply no_backtrack_nth_error.
  - intros key head neck Hhead Hneck.
    unfold head_follows_direction in Hfollows.
    destruct (self_snake self) as [|h [|n rest]]; try discriminate.
    cbn in Hhead, Hneck. injection Hhead as <-. injection Hneck as <-.
    rewrite Hfollows. apply not_opposite_no_return.
    apply poll_direction_not_opposite.
Qed.

Lemma running_snake_is_path_witness :
  reachable overlap_draws window_21 overlap_game /\
  (nth_error (self_snake overlap_game) 0 = Some (mkCoord 14 10) /\
   nth_error (self_snake overlap_game) 1 = Some (mkCoord 14 11) /\
   nth_error (self_snake overlap_game) 2 = Some (mkCoord 15 11)) /\
  manhattan (Coord_sub (mkCoord 14 10) (mkCoord 14 11)) = 1 /\
  mkCoord 14 10 <> mkCoord 15 11 /\
  forall key,
    Coord_add (mkCoord 14 10)
      (from_direction (poll_direction key overlap_game))
    <> mkCoord 14 11.
Proof.
  pose proof (running_snake_is_path overlap_draws window_21 overlap_game
                overlap_game_reachable) as (Hstep & Hback & Hneck).
  split; [exact overlap_game_reachable|].
  split; [repeat split|].
  split; [exact (Hstep 0%nat _ _ eq_refl eq_refl)|].
  split; [exact (Hback 0%nat _ _ eq_refl eq_refl)|].
  intros key. exact (Hneck key _ _ eq_refl eq_refl).
Defined.

(** X18. While the loop keeps running, a snake of up to four segments has
    pairwise distinct segments: the head can only come to lie on the body
    once the snake is five segments long. *)
Theorem short_snake_never_overlaps draws window self :
  reachable draws window self ->
  (length (self_snake self) <= 4)%nat ->
  NoDup (self_snake self).
Proof.
  intros Hreach Hlen.
  destruct (reachable_path _ _ _ Hreach) as (Hsteps & Hback & _).
  assert (Hstep : forall a b d, a = Coord_add b (from_direction d) -> a <> b).
  { intros a [by_ bx] d -> E. destruct d; injection E; lia. }
  assert (Hthree : forall a b c e d1 d2 d3,
            a = Coord_add b (from_direction d1) ->
            b = Coord_add c (from_direction d2) ->
            c = Coord_add e (from_direction d3) -> a <> e).
  { intros a b c [ey ex] d1 d2 d3 -> -> -> E.
    destruct d1, d2, d3; injection E; lia. }
  destruct (self_snake self) as [|a [|b [|c [|e [|f rest]]]]];
    cbn [length] in Hlen; try lia.
  - constructor.
  - repeat constructor. intros [].
  - destruct Hsteps as [[d1 H1] _].
    pose proof (Hstep a b d1 H1) as Hab.
    repeat constructor; cbn; intuition congruence.
  - destruct Hsteps as [[d1 H1] [[d2 H2] _]]. destruct Hback as [Hac _].
    pose proof (Hstep a b d1 H1) as Hab.
    pose proof (Hstep b c d2 H2) as Hbc.
    repeat constructor; cbn; intuition congruence.
  - destruct Hsteps as [[d1 H1] [[d2 H2] [[d3 H3] _]]].
    destruct Hback as [Hac [Hbe _]].
    pose proof (Hthree a b c e d1 d2 d3 H1 H2 H3) as Hae.
    pose proof (Hstep a b d1 H1) as Hab.
    pose proof (Hstep b c d2 H2) as Hbc.
    pose proof (Hstep c e d3 H3) as Hce.
    repeat constructor; cbn; intuition congruence.
Qed.

Lemma short_snake_never_overlaps_witness :
  reachable overlap_draws window_21 overlap_mid /\
  (length (self_snake overlap_mid) <= 4)%nat /\
  NoDup (self_snake overlap_mid).
Proof.
  assert (Hlen : (length (self_snake overlap_mid) <= 4)%nat) by (cbn; lia).
  split; [exact overlap_mid_reachable|]. split; [exact Hlen|].
  exact (short_snake_never_overlaps overlap_draws window_21 overlap_mid
           overlap_mid_reachable Hlen).
Defined.

(** X20. Every direction is horizontal or vertical and never both, and
    opposite directions lie on the same axis, so a rejected reversal would
    not have changed the horizontal correction of the timeout. *)
Theorem directions_by_axis (a b : Direction) :
  Direction_in a horizontal = negb (Direction_in a vertical) /\
  (is_opposite a b = true ->
   Direction_in a horizontal = Direction_in b horizontal /\
   horizontal_correction a = horizontal_correction b).
Proof.
  split; [destruct a; reflexivity|].
  destruct a, b; cbn; intros H; try discriminate; split; reflexivity.
Qed.

Lemma directions_by_axis_witness :
  is_opposite LEFT RIGHT = true /\
  Direction_in LEFT horizontal = Direction_in RIGHT horizontal /\
  horizontal_correction LEFT = horizontal_correction RIGHT.
Proof.
  split; [reflexivity|].
  exact (proj2 (directions_by_axis LEFT RIGHT) eq_refl).
Defined.

(** ** A game left alone *)

Lemma poll_direction_no_key key self :
  get_direction key = None -> poll_direction key self = self_direction self.
Proof. unfold poll_direction. now intros ->. Qed.

(** A one-segment snake heading down with no key pressed and no food on its
    way runs to the bottom row and the game ends there. *)
Lemma straight_down draws fuel window food debug hx :
  0 <= hx <= max_x window ->
  forall n keys hy pos,
    length keys = S n ->
    Forall (fun key => get_direction key = None) keys ->
    0 <= hy -> max_y window - hy = Z.of_nat (S n) ->
    (x (coord food) <> hx \/ y (coord food) < hy) ->
    exists frames,
      main_loop draws fuel window keys
        (mkGame [mkCoord hy hx] food DOWN debug) pos
      = Ok ((frames,
             GameOver (mkGame [mkCoord (max_y window) hx] food DOWN debug)),
            pos) /\
      length frames = n.
Proof.
  intros Hx. induction n as [|n IH];
    intros keys hy pos Hlen Hkeys Hy Hmax Hfood.
  - destruct keys as [|key [|key' keys]]; try discriminate.
    inversion Hkeys as [|? ? Hkey _]; subst.
    assert (Eat : Coord_eq (mkCoord hy hx) (coord food) = false).
    { apply Coord_eq_false_iff. intros E. rewrite <- E in Hfood.
      cbn in Hfood. lia. }
    destruct (tick_no_eat draws fuel window key (mkCoord hy hx) [] food DOWN
                debug pos Eat) as [out [Htick [Hgame Hfurther]]].
    rewrite (poll_direction_no_key _ _ Hkey) in Hgame, Hfurther.
    cbn [self_direction removelast] in Hgame, Hfurther.
    destruct out as [self' timeout|self']; cbn [Tick_game] in Hgame.
    + apply can_go_further_true in Hfurther as [[Hin _] _].
      unfold BORDER in Hin. cbn [y x Coord_add from_direction] in Hin. lia.
    + exists []. split; [|reflexivity].
      cbn [main_loop]. unfold bind. rewrite Htick. unfold ret.
      rewrite Hgame. unfold Coord_add. cbn [y x from_direction].
      replace (hy + (0 + 1)) with (max_y window) by lia.
      replace (hx + 0) with hx by lia. reflexivity.
  - destruct keys as [|key keys]; [discriminate|].
    inversion Hkeys as [|? ? Hkey Hrest]; subst.
    assert (Eat : Coord_eq (mkCoord hy hx) (coord food) = false).
    { apply Coord_eq_false_iff. intros E. rewrite <- E in Hfood.
      cbn in Hfood. lia. }
    destruct (tick_no_eat draws fuel window key (mkCoord hy hx) [] food DOWN
                debug pos Eat) as [out [Htick [Hgame Hfurther]]].
    rewrite (poll_direction_no_key _ _ Hkey) in Hgame, Hfurther.
    cbn [self_direction removelast] in Hgame, Hfurther.
    assert (Hmoved : Coord_add (mkCoord hy hx) (from_direction DOWN)
                     = mkCoord (hy + 1) hx)
      by (unfold Coord_add; cbn [y x from_direction]; f_equal; lia).
    rewrite Hmoved in Hgame, Hfurther.
    destruct out as [self' timeout|self']; cbn [Tick_game] in Hgame.
    + subst self'.
      destruct (IH keys (hy + 1) pos) as [frames [Hloop Hframes]];
        [cbn in Hlen; lia | exact Hrest | lia | lia | lia |].
      eexists. split.
      * cbn [main_loop]. unfold bind at 1. rewrite Htick.
        unfold bind. rewrite Hloop. unfold ret. cbn [fst snd]. reflexivity.
      * cbn [length]. now rewrite Hframes.
    + apply can_go_further_false in Hfurther.
      exfalso. destruct Hfurther as [Hout|Hin].
      * apply Hout. unfold inside_arena, BORDER.
        cbn [y x Coord_add from_direction]. lia.
      * cbn [y x Coord_add from_direction In] in Hin.
        destruct Hin as [E|[]]. injection E. lia.
Qed.

(** X21. A new game in which no direction key is ever pressed, and whose
    first food is not straight below the centre, runs the one-segment snake
    down its column: after as many ticks as there are rows below the centre
    the game is over with the snake on the bottom row, one frame having
    been drawn per tick before the last, and nothing drawn from the
    generator on the way. *)
Theorem untouched_game_ends_at_bottom
  draws fuel0 fuel window debug pos start pos0 keys :
  from_curses_window draws fuel0 window debug pos = Ok (start, pos0) ->
  Forall (fun key => get_direction key = None) keys ->
  Z.of_nat (length keys) = max_y window - y (get_window_center window) ->
  (x (coord (self_food start)) <> x (get_window_center window) \/
   y (coord (self_food start)) < y (get_window_center window)) ->
  exists frames,
    main_loop draws fuel window keys start pos0
    = Ok ((frames,
           GameOver (mkGame [mkCoord (max_y window)
                               (x (get_window_center window))]
                       (self_food start) DOWN debug)), pos0) /\
    S (length frames) = length keys.
Proof.
  intros Hstart Hkeys Hlen Hfood.
  pose proof (from_curses_window_spec _ _ _ _ _ _ _ Hstart)
    as (Hsnake & Hdir & Hdebug & _ & _ & Hcenter & Hcy & _).
  pose proof (from_curses_window_inv _ _ _ _ _ _ _ Hstart) as (Hy & _).
  destruct start as [snake food direction debug'].
  cbn [self_snake self_direction self_debug self_food] in *. subst.
  destruct (get_window_center window) as [cy cx] eqn:Ec.
  cbn [y x] in *. unfold inside_arena, BORDER in Hcenter. cbn [y x] in Hcenter.
  destruct keys as [|key keys]; [cbn in Hlen; lia|].
  destruct (straight_down draws fuel window food debug cx ltac:(lia)
              (length keys) (key :: keys) cy pos0)
    as [frames [Hloop Hframes]];
    [reflexivity | exact Hkeys | lia | cbn [length] in Hlen; lia
     | exact Hfood |].
  exists frames. split; [exact Hloop|]. cbn [length]. now rewrite Hframes.
Qed.

Lemma untouched_game_ends_at_bottom_witness :
  from_curses_window (draws_of [0; 0; 2; 3]) 0%nat window_21 false 0%nat
    = Ok (mkGame [mkCoord 10 10] (mkFood 37 (mkCoord 7 8) RED) DOWN false,
          4%nat) /\
  Forall (fun key => get_direction key = None) (repeat (-1) 10) /\
  Z.of_nat (length (repeat (-1) 10))
    = max_y window_21 - y (get_window_center window_21) /\
  exists frames,
    main_loop (draws_of [0; 0; 2; 3]) 0%nat window_21 (repeat (-1) 10)
      (mkGame [mkCoord 10 10] (mkFood 37 (mkCoord 7 8) RED) DOWN false)
      4%nat
    = Ok ((frames,
           GameOver (mkGame [mkCoord 20 10] (mkFood 37 (mkCoord 7 8) RED)
                       DOWN false)), 4%nat) /\
    S (length frames) = 10%nat.
Proof.
  assert (Hstart : from_curses_window (draws_of [0; 0; 2; 3]) 0%nat
                     window_21 false 0%nat
                   = Ok (mkGame [mkCoord 10 10]
                           (mkFood 37 (mkCoord 7 8) RED) DOWN false, 4%nat))
    by reflexivity.
  assert (Hkeys : Forall (fun key => get_direction key = None)
                    (repeat (-1) 10))
    by (repeat constructor).
  assert (Hlen : Z.of_nat (length (repeat (-1) 10))
                 = max_y window_21 - y (get_window_center window_21))
    by reflexivity.
  split; [exact Hstart|]. split; [exact Hkeys|]. split; [exact Hlen|].
  apply (untouched_game_ends_at_bottom (draws_of [0; 0; 2; 3]) 0%nat 0%nat
           window_21 false 0%nat _ 4%nat (repeat (-1) 10) Hstart Hkeys Hlen).
  left. cbn. lia.
Defined.

Lemma snake_move_never_stays_witness :
  [mkCoord 3 3; mkCoord 3 2] = mkCoord 3 3 :: [mkCoord 3 2] /\
  exists moved,
    snake_move [mkCoord 3 3; mkCoord 3 2] UP false 0%nat
      = Ok (moved, 0%nat) /\
    moved <> [mkCoord 3 3; mkCoord 3 2] /\
    hd_error moved = Some (Coord_add (mkCoord 3 3) (from_direction UP)) /\
    hd_error moved <> hd_error [mkCoord 3 3; mkCoord 3 2] /\
    (forall c, In c moved ->
       c = Coord_add (mkCoord 3 3) (from_direction UP) \/
       In c [mkCoord 3 3; mkCoord 3 2]).
Proof.
  split; [reflexivity|].
  exact (proj2 (snake_move_never_stays [mkCoord 3 3; mkCoord 3 2] UP false
                  0%nat) (mkCoord 3 3) [mkCoord 3 2] eq_refl).
Defined.

(** * The timeout as a float *)

(** ** Rounding to the nearest integer *)

Lemma Qfloor_frac (q : Q) :
  (0 <= q - inject_Z (Qfloor q) /\ q - inject_Z (Qfloor q) < 1)%Q.
Proof.
  pose proof (Qfloor_le q) as Hlo. pose proof (Qlt_floor q) as Hhi.
  rewrite inject_Z_plus in Hhi. change (inject_Z 1) with 1%Q in Hhi.
  split; lra.
Qed.

Lemma rne_cases (q : Q) :
  (rne q = Qfloor q /\ (q - inject_Z (Qfloor q) <= 1 # 2)%Q /\
   ((q - inject_Z (Qfloor q) == 1 # 2)%Q -> Z.even (Qfloor q) = true)) \/
  (rne q = Qfloor q + 1 /\ (1 # 2 <= q - inject_Z (Qfloor q))%Q /\
   ((q - inject_Z (Qfloor q) == 1 # 2)%Q -> Z.even (Qfloor q) = false)).
Proof.
  unfold rne. cbv zeta.
  destruct (q - inject_Z (Qfloor q) ?= 1 # 2)%Q eqn:E.
  - apply Qeq_alt in E. destruct (Z.even (Qfloor q)) eqn:Ev.
    + left. split; [reflexivity|]. split; [lra | auto].
    + right. split; [reflexivity|]. split; [lra | auto].
  - apply Qlt_alt in E. left. split; [reflexivity|]. split; [lra|].
    intros H. lra.
  - apply Qgt_alt in E. right. split; [reflexivity|]. split; [lra|].
    intros H. lra.
Qed.

Lemma rne_error (q : Q) :
  (q - (1 # 2) <= inject_Z (rne q) /\ inject_Z (rne q) <= q + (1 # 2))%Q.
Proof.
  pose proof (Qfloor_frac q) as [H0 H1].
  destruct (rne_cases q) as [(-> & H & _)|(-> & H & _)].
  - split; lra.
  - rewrite inject_Z_plus. change (inject_Z 1) with 1%Q. split; lra.
Qed.

Lemma rne_mono (p q : Q) : (p <= q)%Q -> rne p <= rne q.
Proof.
  intros Hle. pose proof (Qfloor_resp_le _ _ Hle) as Hf.
  pose proof (Qfloor_frac p) as [Hp0 Hp1].
  pose proof (Qfloor_frac q) as [Hq0 Hq1].
  destruct (Z.eq_dec (Qfloor p) (Qfloor q)) as [E|N].
  - destruct (rne_cases p) as [(-> & Hp & Hpe)|(-> & Hp & Hpe)];
      destruct (rne_cases q) as [(-> & Hq & Hqe)|(-> & Hq & Hqe)]; try lia.
    exfalso. rewrite E in *.
    assert (Hp' : (p - inject_Z (Qfloor q) == 1 # 2)%Q) by lra.
    assert (Hq' : (q - inject_Z (Qfloor q) == 1 # 2)%Q) by lra.
    specialize (Hpe Hp'). specialize (Hqe Hq'). congruence.
  - destruct (rne_cases p) as [(-> & _)|(-> & _)];
      destruct (rne_cases q) as [(-> & _)|(-> & _)]; lia.
Qed.

Lemma rne_inject_Z (z : Z) : rne (inject_Z z) = z.
Proof.
  unfold rne. rewrite Qfloor_Z. cbv zeta.
  assert (E : ((inject_Z z - inject_Z z ?= 1 # 2) = Lt)%Q).
  { apply Qlt_alt. assert (H : (inject_Z z - inject_Z z == 0)%Q) by ring.
    rewrite H. reflexivity. }
  now rewrite E.
Qed.

(** ** Powers of two and the exponent of a rational *)

Local Open Scope Q_scope.

Lemma two_neq_0 : ~ 2 == 0.
Proof. discriminate. Qed.

Lemma pow2_pos (k : Z) : 0 < 2 ^ k.
Proof. apply Qpower_0_lt. reflexivity. Qed.

Lemma pow2_plus (a b : Z) : 2 ^ (a + b) == 2 ^ a * 2 ^ b.
Proof. apply Qpower_plus, two_neq_0. Qed.

Lemma pow2_le (a b : Z) : (a <= b)%Z -> 2 ^ a <= 2 ^ b.
Proof. intros H. apply Qpower_le_compat_l; [exact H | discriminate]. Qed.

Lemma pow2_lt_inv (a b : Z) : 2 ^ a < 2 ^ b -> (a < b)%Z.
Proof.
  intros H. apply (Qpower_lt_compat_l_inv 2); [exact H | reflexivity].
Qed.

Lemma pow2_inject (n : Z) : (0 <= n)%Z -> inject_Z (2 ^ n) == 2 ^ n.
Proof. intros H. now rewrite Zpower_Qpower. Qed.

Lemma pow2_succ (a : Z) : 2 ^ (a + 1) == 2 * 2 ^ a.
Proof. rewrite pow2_plus. change (2 ^ 1) with 2. ring. Qed.

Lemma Qlog2_spec (x : Q) :
  0 < x -> 2 ^ Qlog2 x <= x /\ x < 2 ^ (Qlog2 x + 1).
Proof.
  intros Hx. destruct x as [a b].
  assert (Ha : (0 < a)%Z) by (unfold Qlt in Hx; cbn in Hx; lia).
  unfold Qlog2. cbn [Qnum Qden].
  set (la := Z.log2 a). set (lb := Z.log2 (Z.pos b)).
  pose proof (Z.log2_spec a Ha) as [Ha1 Ha2]. fold la in Ha1, Ha2.
  pose proof (Z.log2_spec (Z.pos b) ltac:(lia)) as [Hb1 Hb2].
  fold lb in Hb1, Hb2.
  assert (Hla : (0 <= la)%Z) by apply Z.log2_nonneg.
  assert (Hlb : (0 <= lb)%Z) by apply Z.log2_nonneg.
  set (A := inject_Z a). set (B := inject_Z (Z.pos b)).
  assert (HA1 : 2 ^ la <= A).
  { rewrite <- pow2_inject by lia. unfold A. now rewrite <- Zle_Qle. }
  assert (HA2 : A < 2 * 2 ^ la).
  { rewrite <- pow2_succ, <- pow2_inject by lia. unfold A.
    rewrite <- Zlt_Qlt. unfold Z.succ in Ha2. exact Ha2. }
  assert (HB1 : 2 ^ lb <= B).
  { rewrite <- pow2_inject by lia. unfold B. now rewrite <- Zle_Qle. }
  assert (HB2 : B < 2 * 2 ^ lb).
  { rewrite <- pow2_succ, <- pow2_inject by lia. unfold B.
    rewrite <- Zlt_Qlt. unfold Z.succ in Hb2. exact Hb2. }
  pose proof (pow2_pos la) as HPA. pose proof (pow2_pos lb) as HPB.
  assert (Hx' : a # b == A / B) by apply Qmake_Qdiv.
  assert (HB : 0 < B) by lra.
  assert (Hk : 2 ^ (la - lb) == 2 ^ la / 2 ^ lb)
    by (apply Qpower_minus, two_neq_0).
  assert (Hup : a # b < 2 * 2 ^ (la - lb)).
  { rewrite Hx', Hk. apply Qlt_shift_div_r; [exact HB|].
    assert (E : 2 * (2 ^ la / 2 ^ lb) * B == 2 * 2 ^ la * (B / 2 ^ lb))
      by (field; lra).
    rewrite E.
    assert (1 <= B / 2 ^ lb) by (apply Qle_shift_div_l; lra).
    nra. }
  assert (Hlow : 2 ^ (la - lb) < 2 * (a # b)).
  { rewrite Hx', Hk. apply Qlt_shift_div_r; [exact HPB|].
    assert (E : 2 * (A / B) * 2 ^ lb == A * (2 * 2 ^ lb / B))
      by (field; lra).
    rewrite E.
    assert (1 < 2 * 2 ^ lb / B) by (apply Qlt_shift_div_l; lra).
    nra. }
  destruct (Qle_bool (2 ^ (la - lb)) (a # b)) eqn:E.
  - apply Qle_bool_iff in E. split; [exact E|].
    rewrite pow2_succ. exact Hup.
  - assert (Hlt : a # b < 2 ^ (la - lb)).
    { apply Qnot_le_lt. intros H. apply Qle_bool_iff in H. congruence. }
    replace (la - lb - 1 + 1)%Z with (la - lb)%Z by lia.
    split; [|exact Hlt].
    assert (Hh : 2 ^ (la - lb) == 2 * 2 ^ (la - lb - 1)).
    { rewrite <- pow2_succ. now replace (la - lb - 1 + 1)%Z
        with (la - lb)%Z by lia. }
    lra.
Qed.

(** ** Rounding to binary64 *)

Lemma binary64_pos (x : Q) :
  0 < x ->
  binary64 x
  = inject_Z (rne (x * 2 ^ (52 - Qlog2 x))) * 2 ^ (Qlog2 x - 52).
Proof.
  intros Hx. unfold binary64. destruct x as [[|p|p] b]; try reflexivity;
    unfold Qlt in Hx; cbn in Hx; lia.
Qed.

Lemma scaled_range (x : Q) :
  0 < x ->
  2 ^ 52 <= x * 2 ^ (52 - Qlog2 x) /\ x * 2 ^ (52 - Qlog2 x) < 2 ^ 53.
Proof.
  intros Hx. destruct (Qlog2_spec x Hx) as [Hlo Hhi].
  set (e := Qlog2 x) in *.
  pose proof (pow2_pos (52 - e)) as Hp.
  assert (E1 : 2 ^ 52 == 2 ^ e * 2 ^ (52 - e)).
  { rewrite <- pow2_plus. now replace (e + (52 - e))%Z with 52%Z by lia. }
  assert (E2 : 2 ^ 53 == 2 ^ (e + 1) * 2 ^ (52 - e)).
  { rewrite <- pow2_plus.
    now replace (e + 1 + (52 - e))%Z with 53%Z by lia. }
  rewrite E1, E2. split.
  - apply Qmult_le_compat_r; lra.
  - apply Qmult_lt_compat_r; assumption.
Qed.

Lemma binary64_bounds (x : Q) :
  0 < x ->
  2 ^ Qlog2 x <= binary64 x /\ binary64 x <= 2 ^ (Qlog2 x + 1).
Proof.
  intros Hx. rewrite binary64_pos by exact Hx.
  destruct (scaled_range x Hx) as [Hlo Hhi].
  set (e := Qlog2 x) in *. set (s := x * 2 ^ (52 - e)) in *.
  pose proof (pow2_pos (e - 52)) as Hp.
  assert (H52 : (2 ^ 52 <= rne s)%Z).
  { rewrite <- (rne_inject_Z (2 ^ 52)). apply rne_mono.
    rewrite pow2_inject by lia. exact Hlo. }
  assert (H53 : (rne s <= 2 ^ 53)%Z).
  { rewrite <- (rne_inject_Z (2 ^ 53)). apply rne_mono.
    rewrite pow2_inject by lia. lra. }
  rewrite Zle_Qle in H52, H53.
  rewrite pow2_inject in H52, H53 by lia.
  assert (E1 : 2 ^ e == 2 ^ 52 * 2 ^ (e - 52)).
  { rewrite <- pow2_plus. now replace (52 + (e - 52))%Z with e by lia. }
  assert (E2 : 2 ^ (e + 1) == 2 ^ 53 * 2 ^ (e - 52)).
  { rewrite <- pow2_plus.
    now replace (53 + (e - 52))%Z with (e + 1)%Z by lia. }
  rewrite E1, E2. split; apply Qmult_le_compat_r; lra.
Qed.

Lemma Qlog2_mono (x y : Q) : 0 < x -> x <= y -> (Qlog2 x <= Qlog2 y)%Z.
Proof.
  intros Hx Hxy. destruct (Qlog2_spec x Hx) as [Hlo _].
  destruct (Qlog2_spec y ltac:(lra)) as [_ Hhi].
  assert (H : 2 ^ Qlog2 x < 2 ^ (Qlog2 y + 1)) by lra.
  apply pow2_lt_inv in H. lia.
Qed.

Lemma binary64_mono (x y : Q) :
  0 < x -> x <= y -> binary64 x <= binary64 y.
Proof.
  intros Hx Hxy. assert (Hy : 0 < y) by lra.
  pose proof (Qlog2_mono x y Hx Hxy) as He.
  destruct (Z.eq_dec (Qlog2 x) (Qlog2 y)) as [E|N].
  - rewrite !binary64_pos by assumption. rewrite E.
    pose proof (pow2_pos (Qlog2 y - 52)) as Hp.
    pose proof (pow2_pos (52 - Qlog2 y)) as Hq.
    apply Qmult_le_compat_r; [|lra].
    rewrite <- Zle_Qle. apply rne_mono.
    apply Qmult_le_compat_r; lra.
  - destruct (binary64_bounds x Hx) as [_ Hxu].
    destruct (binary64_bounds y Hy) as [Hyl _].
    pose proof (pow2_le (Qlog2 x + 1) (Qlog2 y) ltac:(lia)). lra.
Qed.

Lemma binary64_error (x : Q) :
  0 < x ->
  x - 2 ^ (Qlog2 x - 53) <= binary64 x /\
  binary64 x <= x + 2 ^ (Qlog2 x - 53).
Proof.
  intros Hx. rewrite binary64_pos by exact Hx.
  set (e := Qlog2 x). set (s := x * 2 ^ (52 - e)).
  pose proof (rne_error s) as [Hlo Hhi].
  pose proof (pow2_pos (e - 52)) as Hp.
  assert (Ex : x == s * 2 ^ (e - 52)).
  { unfold s. rewrite <- Qmult_assoc, <- pow2_plus.
    replace (52 - e + (e - 52))%Z with 0%Z by lia.
    change (2 ^ 0) with 1. ring. }
  assert (Eh : 2 ^ (e - 53) == (1 # 2) * 2 ^ (e - 52)).
  { replace (e - 52)%Z with (e - 53 + 1)%Z by lia.
    rewrite pow2_succ. ring. }
  rewrite Eh. split.
  - rewrite Ex at 1. nra.
  - rewrite Ex at 1. nra.
Qed.

Lemma binary64_error_below_1 (x : Q) :
  0 < x -> x < 1 ->
  x - (1 # 2 ^ 54) <= binary64 x /\ binary64 x <= x + (1 # 2 ^ 54).
Proof.
  intros Hx H1. destruct (binary64_error x Hx) as [Hlo Hhi].
  destruct (Qlog2_spec x Hx) as [Hl _].
  assert (He : (Qlog2 x < 0)%Z).
  { apply pow2_lt_inv. change (2 ^ 0) with 1. lra. }
  pose proof (pow2_le (Qlog2 x - 53) (-54) ltac:(lia)) as Hp.
  assert (E : 2 ^ (-54) == 1 # 2 ^ 54) by reflexivity.
  rewrite E in Hp. split; lra.
Qed.

(** ** The timeout the code returns *)

Lemma calculate_frame_timeout_binary64_value snake direction pos :
  snake <> [] ->
  calculate_frame_timeout_binary64 snake direction pos
  = Ok (frame_timeout_binary64 (Z.of_nat (length snake)) direction, pos).
Proof.
  intros Hne. unfold calculate_frame_timeout_binary64.
  destruct (Z.eqb_spec (Z.of_nat (length snake) * 2) 0) as [E|_].
  - destruct snake; [congruence | cbn [length] in E; lia].
  - reflexivity.
Qed.

(** The base tick as a float: [TIC * horizontal_correction]. It is a float
    as it stands, between 1/16 and 1/5. *)
Lemma base_tick_binary64 direction :
  1 # 16 < binary64 (TIC_binary64 * horizontal_correction direction) /\
  binary64 (TIC_binary64 * horizontal_correction direction) < 1 # 5 /\
  binary64 (binary64 (TIC_binary64 * horizontal_correction direction))
  == binary64 (TIC_binary64 * horizontal_correction direction).
Proof.
  destruct direction; repeat split; vm_compute; reflexivity.
Qed.

(** The size correction before and after rounding. *)
Lemma size_correction_binary64 (n : nat) :
  (1 <= n)%nat ->
  0 < 1 / inject_Z (Z.of_nat n * 2) /\
  1 / inject_Z (Z.of_nat n * 2) <= 1 # 2 /\
  1 / inject_Z (Z.of_nat n * 2) - (1 # 2 ^ 54)
  <= binary64 (1 / inject_Z (Z.of_nat n * 2)) /\
  binary64 (1 / inject_Z (Z.of_nat n * 2))
  <= 1 / inject_Z (Z.of_nat n * 2) + (1 # 2 ^ 54) /\
  0 < binary64 (1 / inject_Z (Z.of_nat n * 2)) /\
  binary64 (1 / inject_Z (Z.of_nat n * 2)) <= 1 # 2.
Proof.
  intros Hn.
  pose proof (size_correction_pos n Hn) as Hpos.
  pose proof (size_correction_le 1 n ltac:(lia) Hn) as Hle.
  change (1 / inject_Z (Z.of_nat 1 * 2)) with (1 / inject_Z 2) in Hle.
  assert (Hhalf : 1 / inject_Z 2 == 1 # 2) by reflexivity.
  rewrite Hhalf in Hle.
  destruct (binary64_error_below_1 _ Hpos ltac:(lra)) as [Hlo Hhi].
  destruct (binary64_bounds _ Hpos) as [Hb _].
  pose proof (pow2_pos (Qlog2 (1 / inject_Z (Z.of_nat n * 2)))) as Hp.
  pose proof (binary64_mono _ _ Hpos Hle) as Hmono.
  assert (Eh : binary64 (1 # 2) == 1 # 2) by (vm_compute; reflexivity).
  rewrite Eh in Hmono.
  repeat split; try assumption; lra.
Qed.

(** The float returned is within [2 ^ -53] of the rounded base tick plus
    the exact size correction. *)
Lemma frame_timeout_binary64_error (n : nat) direction :
  (1 <= n)%nat ->
  binary64 (TIC_binary64 * horizontal_correction direction)
  + 1 / inject_Z (Z.of_nat n * 2) - (1 # 2 ^ 53)
  <= frame_timeout_binary64 (Z.of_nat n) direction /\
  frame_timeout_binary64 (Z.of_nat n) direction
  <= binary64 (TIC_binary64 * horizontal_correction direction)
     + 1 / inject_Z (Z.of_nat n * 2) + (1 # 2 ^ 53).
Proof.
  intros Hn. unfold frame_timeout_binary64. cbv zeta.
  destruct (base_tick_binary64 direction) as (Hb1 & Hb2 & _).
  destruct (size_correction_binary64 n Hn)
    as (Hr0 & Hr1 & Hc1 & Hc2 & Hc0 & Hc3).
  set (B := binary64 (TIC_binary64 * horizontal_correction direction)) in *.
  set (r := 1 / inject_Z (Z.of_nat n * 2)) in *.
  set (c := binary64 r) in *.
  destruct (binary64_error_below_1 (B + c) ltac:(lra) ltac:(lra))
    as [Hlo Hhi].
  assert (E : (1 # 2 ^ 53) == (1 # 2 ^ 54) + (1 # 2 ^ 54)) by reflexivity.
  rewrite E. split; lra.
Qed.

Lemma frame_timeout_binary64_mono (m n : nat) direction :
  (1 <= m)%nat -> (m <= n)%nat ->
  frame_timeout_binary64 (Z.of_nat n) direction
  <= frame_timeout_binary64 (Z.of_nat m) direction.
Proof.
  intros Hm Hmn. unfold frame_timeout_binary64. cbv zeta.
  destruct (base_tick_binary64 direction) as (Hb1 & _).
  destruct (size_correction_binary64 n ltac:(lia))
    as (Hr0 & _ & _ & _ & Hc0 & _).
  pose proof (size_correction_le m n Hm Hmn) as Hle.
  pose proof (binary64_mono _ _ Hr0 Hle) as Hc.
  apply binary64_mono; lra.
Qed.

Lemma frame_timeout_binary64_base (n : nat) direction :
  (1 <= n)%nat ->
  binary64 (TIC_binary64 * horizontal_correction direction)
  <= frame_timeout_binary64 (Z.of_nat n) direction.
Proof.
  intros Hn. unfold frame_timeout_binary64. cbv zeta.
  destruct (base_tick_binary64 direction) as (Hb1 & _ & Hid).
  destruct (size_correction_binary64 n Hn) as (_ & _ & _ & _ & Hc0 & _).
  rewrite <- Hid at 1. apply binary64_mono; lra.
Qed.

(** Lengths up to [2 ^ 25] are far enough apart for the rounding. *)
Lemma size_correction_gap (m n : nat) :
  (1 <= m)%nat -> (m < n)%nat -> (Z.of_nat n <= 2 ^ 25)%Z ->
  1 / inject_Z (Z.of_nat n * 2) + (1 # 2 ^ 52)
  < 1 / inject_Z (Z.of_nat m * 2).
Proof.
  intros Hm Hmn Hn.
  destruct (Z.of_nat n * 2)%Z as [|p|p] eqn:En; try lia.
  destruct (Z.of_nat m * 2)%Z as [|q|q] eqn:Em; try lia.
  assert (Hq : (Z.pos q + 2 <= Z.pos p)%Z) by lia.
  assert (Hp : (Z.pos p <= 2 ^ 26)%Z) by lia.
  unfold Qlt, Qplus, Qdiv, Qmult, Qinv, inject_Z.
  cbn [Qnum Qden Z.mul Pos.mul].
  rewrite !Pos2Z.inj_mul.
  change (Z.pos (2 ^ 52)) with (2 ^ 52)%Z.
  assert (Hpq : (Z.pos p * Z.pos q <= 2 ^ 26 * (2 ^ 26 - 2))%Z) by nia.
  nia.
Qed.

Lemma size_correction_above_rounding (n : nat) :
  (1 <= n)%nat -> (Z.of_nat n < 2 ^ 52)%Z ->
  1 # 2 ^ 53 < 1 / inject_Z (Z.of_nat n * 2).
Proof.
  intros Hn Hb.
  destruct (Z.of_nat n * 2)%Z as [|p|p] eqn:En; try lia.
  unfold Qlt. cbn. change (Z.pos (2 ^ 53)) with (2 ^ 53)%Z. lia.
Qed.

(** C7, as the code has it. With the direction held fixed the timeout never
    goes up as the snake gets longer and is never below the base tick, the
    float [TIC * horizontal_correction]. It goes strictly down from one
    length to any longer one up to [2 ^ 25] segments, and is strictly above
    the base tick for fewer than [2 ^ 52] segments. Beyond that the
    rounding of the sum can swallow the difference. *)
Theorem calculate_frame_timeout_binary64_decreasing
  direction snake_m snake_n pos :
  (1 <= length snake_m)%nat ->
  (length snake_m < length snake_n)%nat ->
  exists timeout_m timeout_n,
    calculate_frame_timeout_binary64 snake_m direction pos
      = Ok (timeout_m, pos) /\
    calculate_frame_timeout_binary64 snake_n direction pos
      = Ok (timeout_n, pos) /\
    timeout_n <= timeout_m /\
    binary64 (TIC_binary64 * horizontal_correction direction) <= timeout_n /\
    ((Z.of_nat (length snake_n) <= 2 ^ 25)%Z -> timeout_n < timeout_m) /\
    ((Z.of_nat (length snake_n) < 2 ^ 52)%Z ->
     binary64 (TIC_binary64 * horizontal_correction direction) < timeout_n).
Proof.
  intros Hm Hmn. eexists. eexists.
  split; [apply calculate_frame_timeout_binary64_value,
            length_pos_nonempty; lia|].
  split; [apply calculate_frame_timeout_binary64_value,
            length_pos_nonempty; lia|].
  split; [apply frame_timeout_binary64_mono; lia|].
  split; [apply frame_timeout_binary64_base; lia|].
  pose proof (frame_timeout_binary64_error (length snake_m) direction Hm)
    as [Hm_lo _].
  pose proof (frame_timeout_binary64_error (length snake_n) direction
                ltac:(lia)) as [Hn_lo Hn_hi].
  assert (E : (1 # 2 ^ 52) == (1 # 2 ^ 53) + (1 # 2 ^ 53)) by reflexivity.
  split.
  - intros Hn.
    pose proof (size_correction_gap _ _ Hm Hmn Hn) as Hgap.
    rewrite E in Hgap. lra.
  - intros Hn.
    pose proof (size_correction_above_rounding (length snake_n)
                  ltac:(lia) Hn) as Habove.
    lra.
Qed.

Lemma calculate_frame_timeout_binary64_decreasing_witness :
  (1 <= length [mkCoord 5 5])%nat /\
  (length [mkCoord 5 5] < length [mkCoord 5 6; mkCoord 5 5])%nat /\
  (Z.of_nat (length [mkCoord 5 6; mkCoord 5 5]) <= 2 ^ 25)%Z /\
  (Z.of_nat (length [mkCoord 5 6; mkCoord 5 5]) < 2 ^ 52)%Z /\
  exists timeout_m timeout_n,
    calculate_frame_timeout_binary64 [mkCoord 5 5] RIGHT 0%nat
      = Ok (timeout_m, 0%nat) /\
    calculate_frame_timeout_binary64 [mkCoord 5 6; mkCoord 5 5] RIGHT 0%nat
      = Ok (timeout_n, 0%nat) /\
    timeout_n <= timeout_m /\
    binary64 (TIC_binary64 * horizontal_correction RIGHT) <= timeout_n /\
    timeout_n < timeout_m /\
    binary64 (TIC_binary64 * horizontal_correction RIGHT) < timeout_n.
Proof.
  assert (H1 : (1 <= length [mkCoord 5 5])%nat) by (cbn; lia).
  assert (H2 : (length [mkCoord 5 5]
                < length [mkCoord 5 6; mkCoord 5 5])%nat) by (cbn; lia).
  assert (H3 : (Z.of_nat (length [mkCoord 5 6; mkCoord 5 5]) <= 2 ^ 25)%Z)
    by (cbn; lia).
  assert (H4 : (Z.of_nat (length [mkCoord 5 6; mkCoord 5 5]) < 2 ^ 52)%Z)
    by (cbn; lia).
  destruct (calculate_frame_timeout_binary64_decreasing RIGHT
              [mkCoord 5 5] [mkCoord 5 6; mkCoord 5 5] 0%nat H1 H2)
    as (tm & tn & Em & En & Hle & Hbase & Hstrict & Habove).
  split; [exact H1|]. split; [exact H2|]. split; [exact H3|].
  split; [exact H4|].
  exists tm, tn. split; [exact Em|]. split; [exact En|].
  split; [exact Hle|]. split; [exact Hbase|].
  split; [exact (Hstrict H3) | exact (Habove H4)].
Defined.

Lemma long_snake_length (len : Z) :
  (0 <= len)%Z -> Z.of_nat (length (long_snake len)) = len.
Proof.
  intros H. unfold long_snake. rewrite repeat_length. now apply Z2Nat.id.
Qed.

Lemma long_snake_value (len : Z) direction pos :
  (0 < len)%Z ->
  calculate_frame_timeout_binary64 (long_snake len) direction pos
  = Ok (frame_timeout_binary64 len direction, pos).
Proof.
  intros H. rewrite calculate_frame_timeout_binary64_value.
  - now rewrite long_snake_length by lia.
  - intros E. pose proof (long_snake_length len ltac:(lia)) as Hl.
    rewrite E in Hl. cbn in Hl. lia.
Qed.

(** C7 fails on the code: heading down, snakes of 134225920 and of 134225921
    segments get the same timeout, the float 6004799637370197 / 2 ^ 55
    (0.16666667039172958); the same arithmetic on machine floats gives that
    very number. *)
Lemma calculate_frame_timeout_binary64_tie :
  exists timeout_m timeout_n,
    calculate_frame_timeout_binary64 (long_snake 134225920) DOWN 0%nat
      = Ok (timeout_m, 0%nat) /\
    calculate_frame_timeout_binary64 (long_snake 134225921) DOWN 0%nat
      = Ok (timeout_n, 0%nat) /\
    Z.of_nat (length (long_snake 134225920)) = 134225920%Z /\
    Z.of_nat (length (long_snake 134225921)) = 134225921%Z /\
    timeout_m == 6004799637370197 # 2 ^ 55 /\
    timeout_n == timeout_m /\
    ~ timeout_n < timeout_m /\
    float_value (prim_frame_timeout 134225920 DOWN) == timeout_m /\
    PrimFloat.eqb (prim_frame_timeout 134225920 DOWN)
      (prim_frame_timeout 134225921 DOWN) = true.
Proof.
  eexists. eexists.
  split; [apply long_snake_value; lia|].
  split; [apply long_snake_value; lia|].
  split; [apply long_snake_length; lia|].
  split; [apply long_snake_length; lia|].
  assert (Em : frame_timeout_binary64 134225920 DOWN
               == 6004799637370197 # 2 ^ 55) by (vm_compute; reflexivity).
  assert (En : frame_timeout_binary64 134225921 DOWN
               == 6004799637370197 # 2 ^ 55) by (vm_compute; reflexivity).
  split; [exact Em|]. split; [now rewrite Em, En|].
  split; [rewrite Em, En; apply Qlt_irrefl|].
  split; [vm_compute; reflexivity | vm_compute; reflexivity].
Qed.

(** The rounding model and the machine's floats give the same timeouts at
    every length of [compared_lengths], in both kinds of direction. *)
Lemma frame_timeout_binary64_matches_floats :
  forallb (fun len =>
             Qeq_bool (float_value (prim_frame_timeout len DOWN))
               (frame_timeout_binary64 len DOWN)
             && Qeq_bool (float_value (prim_frame_timeout len RIGHT))
                  (frame_timeout_binary64 len RIGHT))
    compared_lengths = true.
Proof. vm_compute. reflexivity. Qed.

(** X10. For one and the same snake a horizontal heading gets a strictly
    shorter timeout than a vertical one. The difference is [TIC / 2] up to
    the rounding of the two sums: it is within [2 ^ -53] of the float
    [TIC / 2]. *)
Theorem calculate_frame_timeout_binary64_horizontal
  snake across along pos :
  snake <> [] ->
  Direction_in across horizontal = true ->
  Direction_in along vertical = true ->
  exists timeout_across timeout_along,
    calculate_frame_timeout_binary64 snake across pos
      = Ok (timeout_across, pos) /\
    calculate_frame_timeout_binary64 snake along pos
      = Ok (timeout_along, pos) /\
    timeout_across < timeout_along /\
    TIC_binary64 / 2 - (1 # 2 ^ 53) <= timeout_along - timeout_across /\
    timeout_along - timeout_across <= TIC_binary64 / 2 + (1 # 2 ^ 53).
Proof.
  intros Hne Hacross Halong. eexists. eexists.
  split; [now apply calculate_frame_timeout_binary64_value|].
  split; [now apply calculate_frame_timeout_binary64_value|].
  assert (Hn : (1 <= length snake)%nat)
    by (destruct snake; [congruence | cbn; lia]).
  assert (Ha : horizontal_correction across = 1 # 2)
    by (destruct across; try discriminate; reflexivity).
  assert (Hv : horizontal_correction along = 1)
    by (destruct along; try discriminate; reflexivity).
  unfold frame_timeout_binary64. cbv zeta. rewrite Ha, Hv.
  destruct (size_correction_binary64 (length snake) Hn)
    as (_ & _ & _ & _ & Hc0 & Hc1).
  set (c := binary64 (1 / inject_Z (Z.of_nat (length snake) * 2))) in *.
  assert (Ev : binary64 (TIC_binary64 * 1) == TIC_binary64)
    by (vm_compute; reflexivity).
  change (TIC_binary64 / 2) with (TIC_binary64 * (1 # 2)).
  assert (Eh : binary64 (TIC_binary64 * (1 # 2)) == TIC_binary64 * (1 # 2))
    by (vm_compute; reflexivity).
  assert (Ht : 1 # 8 < TIC_binary64 /\ TIC_binary64 < 1 # 5)
    by (split; vm_compute; reflexivity).
  destruct Ht as [Ht1 Ht2].
  set (Bv := binary64 (TIC_binary64 * 1)) in *.
  set (Bh := binary64 (TIC_binary64 * (1 # 2))) in *.
  destruct (binary64_error_below_1 (Bv + c) ltac:(lra) ltac:(lra))
    as [Hv_lo Hv_hi].
  destruct (binary64_error_below_1 (Bh + c) ltac:(lra) ltac:(lra))
    as [Hh_lo Hh_hi].
  assert (E : (1 # 2 ^ 53) == (1 # 2 ^ 54) + (1 # 2 ^ 54)) by reflexivity.
  assert (E54 : (1 # 2 ^ 54) < 1 # 1000) by reflexivity.
  rewrite E. repeat split; lra.
Qed.

Lemma calculate_frame_timeout_binary64_horizontal_witness :
  [mkCoord 3 3] <> [] /\
  Direction_in RIGHT horizontal = true /\
  Direction_in UP vertical = true /\
  exists timeout_across timeout_along,
    calculate_frame_timeout_binary64 [mkCoord 3 3] RIGHT 0%nat
      = Ok (timeout_across, 0%nat) /\
    calculate_frame_timeout_binary64 [mkCoord 3 3] UP 0%nat
      = Ok (timeout_along, 0%nat) /\
    timeout_across < timeout_along /\
    TIC_binary64 / 2 - (1 # 2 ^ 53) <= timeout_along - timeout_across /\
    timeout_along - timeout_across <= TIC_binary64 / 2 + (1 # 2 ^ 53).
Proof.
  assert (H : [mkCoord 3 3] <> []) by discriminate.
  split; [exact H|]. split; [reflexivity|]. split; [reflexivity|].
  exact (calculate_frame_timeout_binary64_horizontal [mkCoord 3 3] RIGHT UP
           0%nat H eq_refl eq_refl).
Defined.

(** X22. The float [calculate_frame_timeout] returns and the exact value of
    its formula differ by at most [2 ^ -52], whatever the snake and the
    direction; both raise [ZeroDivisionError] on the empty snake. *)
Theorem calculate_frame_timeout_binary64_close snake direction pos :
  (snake = [] ->
   calculate_frame_timeout_binary64 snake direction pos
     = Raise ZeroDivisionError /\
   calculate_frame_timeout snake direction pos = Raise ZeroDivisionError) /\
  (snake <> [] ->
   exists exact returned,
     calculate_frame_timeout snake direction pos = Ok (exact, pos) /\
     calculate_frame_timeout_binary64 snake direction pos
       = Ok (returned, pos) /\
     exact - (1 # 2 ^ 52) <= returned /\ returned <= exact + (1 # 2 ^ 52)).
Proof.
  split; [intros ->; split; reflexivity|].
  intros Hne. eexists. eexists.
  split; [now apply calculate_frame_timeout_value|].
  split; [now apply calculate_frame_timeout_binary64_value|].
  assert (Hn : (1 <= length snake)%nat)
    by (destruct snake; [congruence | cbn; lia]).
  destruct (frame_timeout_binary64_error (length snake) direction Hn)
    as [Hlo Hhi].
  assert (Hb : TIC * horizontal_correction direction - (1 # 2 ^ 56)
               <= binary64 (TIC_binary64 * horizontal_correction direction)
               /\ binary64 (TIC_binary64 * horizontal_correction direction)
                  <= TIC * horizontal_correction direction + (1 # 2 ^ 56))
    by (destruct direction; split; vm_compute; discriminate).
  destruct Hb as [Hb1 Hb2].
  assert (E : (1 # 2 ^ 52) == (1 # 2 ^ 53) + (1 # 2 ^ 56) + (7 # 2 ^ 56))
    by reflexivity.
  rewrite E.
  set (r := 1 / inject_Z (Z.of_nat (length snake) * 2)) in *.
  set (T := TIC * horizontal_correction direction) in *.
  set (B := binary64 (TIC_binary64 * horizontal_correction direction)) in *.
  set (t := frame_timeout_binary64 (Z.of_nat (length snake)) direction) in *.
  assert (H7 : 0 <= 7 # 2 ^ 56) by discriminate.
  clearbody r T B t. split; lra.
Qed.

Lemma calculate_frame_timeout_binary64_close_witness :
  [mkCoord 3 3; mkCoord 3 2; mkCoord 3 1] <> [] /\
  exists exact returned,
    calculate_frame_timeout [mkCoord 3 3; mkCoord 3 2; mkCoord 3 1] LEFT
      0%nat = Ok (exact, 0%nat) /\
    calculate_frame_timeout_binary64
      [mkCoord 3 3; mkCoord 3 2; mkCoord 3 1] LEFT 0%nat
      = Ok (returned, 0%nat) /\
    exact - (1 # 2 ^ 52) <= returned /\ returned <= exact + (1 # 2 ^ 52).
Proof.
  assert (H : [mkCoord 3 3; mkCoord 3 2; mkCoord 3 1] <> []) by discriminate.
  split; [exact H|].
  exact (proj2 (calculate_frame_timeout_binary64_close
                  [mkCoord 3 3; mkCoord 3 2; mkCoord 3 1] LEFT 0%nat) H).
Defined.

Local Close Scope Q_scope.
